(** * flamslam-js: buffers, matrices, pool, pyramid and grayscale conversion

    A shallow embedding of the TypeScript sources

    - [core/data.ts]      (class [Data]),
    - [core/matrix.ts]    (class [Matrix]),
    - [core/pyramid.ts]   (class [Pyramid]),
    - [memory/pool.ts]    (class [PoolNode]),
    - [memory/cache.ts]   (class [Cache]),
    - [image/processing.ts] (class [ImageProcessing]),
    - [constants.ts]

    and the properties of the design document that concern them.

    Modelling conventions.

    - JavaScript objects live in an object store ([heap]); a reference is
      the index of the object in its table, so two references denote the
      same object exactly when they are equal.  Tables only grow: [new]
      appends, so a fresh object never aliases an existing one.
    - A method is a function [heap -> result A * heap]: the outcome is a
      value or a thrown error, and the store reached is returned in both
      cases (an exception leaves the mutations done before it in place).
    - Numbers are the mathematical integers, extended with [NaN] where the
      code can produce it (arithmetic on [undefined]).  JavaScript computes
      in binary64, which is exact on integers of magnitude below [2^53];
      the bitwise operators work on 32 bits and their wrap-around is
      written out ([to_int32]).
    - The luminance arithmetic is binary64 and is modelled with the
      primitive floats.
    - Built-ins ([ArrayBuffer], the typed arrays, [ToInt32]) follow
      ECMAScript; typed arrays use the byte order of the platform, taken
      little-endian.
    - [Matrix.copyTo] and the function handed to [Pyramid.build] are
      parameters of [Pyramid_build]; the element-wise copy itself, the
      constructor and [allocate] of [Pyramid], and [Keypoint] are not
      modelled. *)

From Stdlib Require Import ZArith List Lia Bool Floats Uint63.
From stdpp Require Import base list.

Open Scope Z_scope.

(* ================================================================== *)
(** ** JavaScript numbers and bitwise operators *)

Inductive number : Type :=
| Num (z : Z)
| NaN.

Definition nmul (a b : number) : number :=
  match a, b with
  | Num x, Num y => Num (x * y)
  | _, _ => NaN
  end.

Definition nadd (a b : number) : number :=
  match a, b with
  | Num x, Num y => Num (x + y)
  | _, _ => NaN
  end.

(** [a > b]; a comparison with [NaN] is false. *)
Definition ngt (a : number) (b : Z) : bool :=
  match a with
  | Num x => b <? x
  | NaN => false
  end.

(** ToInt32 on an integer: reduction modulo [2^32] into [-2^31, 2^31). *)
Definition to_int32 (z : Z) : Z := (z + 2^31) mod 2^32 - 2^31.

(** ToInt32 on a number: [NaN] becomes [0]. *)
Definition ToInt32 (n : number) : Z :=
  match n with
  | Num z => to_int32 z
  | NaN => 0
  end.

(** [a & b] on two numbers. *)
Definition bit_and (a b : number) : Z := Z.land (ToInt32 a) (ToInt32 b).

(** [a | 0] on an integer. *)
Definition or0 (z : Z) : Z := to_int32 z.

(* ================================================================== *)
(** ** Outcomes *)

Inductive error : Type :=
| RangeError       (* thrown by the ArrayBuffer and typed array constructors *)
| TypeError        (* property access on null or undefined *)
| CacheExhausted   (* Error('Cache exhausted ...') of Cache.get_buffer *)
| FuelExhausted.   (* a while loop of the model ran out of fuel: never a
                      JavaScript outcome, shown not to happen *)

Inductive result (A : Type) : Type :=
| Ok (a : A)
| Throw (e : error).

Arguments Ok {A} a.
Arguments Throw {A} e.

(* ================================================================== *)
(** ** constants.ts *)

Definition DataType_U8  : Z := 0x0100.
Definition DataType_S32 : Z := 0x0200.
Definition DataType_F32 : Z := 0x0400.
Definition DataType_S64 : Z := 0x0800.
Definition DataType_F64 : Z := 0x1000.

Definition Channels_C1 : Z := 0x01.
Definition Channels_C2 : Z := 0x02.
Definition Channels_C3 : Z := 0x03.
Definition Channels_C4 : Z := 0x04.

Definition RGBA2GRAY : Z := 0.
Definition RGB2GRAY  : Z := 1.
Definition BGRA2GRAY : Z := 2.
Definition BGR2GRAY  : Z := 3.

(** The members of the enum [DataType]. *)
Definition is_DataType (ty : Z) : bool :=
  (ty =? DataType_U8) || (ty =? DataType_S32) || (ty =? DataType_F32)
  || (ty =? DataType_S64) || (ty =? DataType_F64).

(** The members of the enum [ColorConversion]. *)
Definition is_ColorConversion (code : Z) : bool :=
  (code =? RGBA2GRAY) || (code =? RGB2GRAY) || (code =? BGRA2GRAY)
  || (code =? BGR2GRAY).

(** [DATA_TYPE_SIZE[type]]: a missing key reads as [undefined]. *)
Definition DATA_TYPE_SIZE (ty : Z) : option Z :=
  if ty =? DataType_U8 then Some 1
  else if ty =? DataType_S32 then Some 4
  else if ty =? DataType_F32 then Some 4
  else if ty =? DataType_S64 then Some 8
  else if ty =? DataType_F64 then Some 8
  else None.

Definition getDataType (value : Z) : Z := bit_and (Num value) (Num 0xff00).

Definition getChannel (value : Z) : Z := bit_and (Num value) (Num 0xff).

(** The result as it enters arithmetic: [undefined] behaves as [NaN]. *)
Definition getDataTypeSize (ty : Z) : number :=
  match DATA_TYPE_SIZE ty with
  | Some s => Num s
  | None => NaN
  end.

(* ================================================================== *)
(** ** The object store *)

Definition loc := nat.

(** The four typed views a [Data] creates over its ArrayBuffer. *)
Inductive ViewKind : Type := u8 | i32 | f32 | f64.

Definition BYTES_PER_ELEMENT (k : ViewKind) : Z :=
  match k with
  | u8 => 1
  | i32 => 4
  | f32 => 4
  | f64 => 8
  end.

(** A typed array created by [Data]: the view of kind [k] of the [Data]
    object [d].  Each [Data] creates exactly one view of each kind, over
    its whole ArrayBuffer. *)
Record TypedArray : Type := mkTypedArray {
  ta_kind : ViewKind;
  ta_owner : loc
}.

(** class Data: [size] and [buffer]; the fields [u8], [i32], [f32], [f64]
    are [mkTypedArray k this]. *)
Record Data : Type := mkData {
  Data_size : Z;
  Data_buffer : loc
}.

(** class Matrix.  [buffer] and [data] are declared with [!]: they are
    unassigned until the constructor reaches them, and [data] is
    [undefined] when [selectTypedView] falls out of its switch. *)
Record Matrix : Type := mkMatrix {
  Matrix_cols : Z;
  Matrix_rows : Z;
  Matrix_type : Z;
  Matrix_channels : Z;
  Matrix_buffer : option loc;
  Matrix_data : option TypedArray
}.

(** class PoolNode. *)
Record PoolNode : Type := mkPoolNode {
  PoolNode_next : option loc;
  PoolNode_data : loc;
  PoolNode_size : Z
}.

(** class Cache. *)
Record Cache : Type := mkCache {
  Cache_head : option loc;
  Cache_tail : option loc
}.

Record heap : Type := mkHeap {
  abufs : list (list Z);      (* ArrayBuffer objects: their bytes *)
  datas : list Data;
  matrices : list Matrix;
  nodes : list PoolNode;
  caches : list Cache
}.

Definition empty_heap : heap := mkHeap [] [] [] [] [].

Definition with_abufs (f : list (list Z) -> list (list Z)) (h : heap) : heap :=
  mkHeap (f (abufs h)) (datas h) (matrices h) (nodes h) (caches h).

Definition with_datas (f : list Data -> list Data) (h : heap) : heap :=
  mkHeap (abufs h) (f (datas h)) (matrices h) (nodes h) (caches h).

Definition with_matrices (f : list Matrix -> list Matrix) (h : heap) : heap :=
  mkHeap (abufs h) (datas h) (f (matrices h)) (nodes h) (caches h).

Definition with_nodes (f : list PoolNode -> list PoolNode) (h : heap) : heap :=
  mkHeap (abufs h) (datas h) (matrices h) (f (nodes h)) (caches h).

Definition with_caches (f : list Cache -> list Cache) (h : heap) : heap :=
  mkHeap (abufs h) (datas h) (matrices h) (nodes h) (f (caches h)).

(* ================================================================== *)
(** ** The monad of methods *)

(** A computation over a store [St]; the methods of the classes run over
    the object store, [M A]. *)
Definition MS (St A : Type) : Type := St -> result A * St.

Abbreviation M := (MS heap).

Definition ret {St A} (a : A) : MS St A := fun s => (Ok a, s).

Definition throw {St A} (e : error) : MS St A := fun s => (Throw e, s).

Definition bind {St A B} (m : MS St A) (k : A -> MS St B) : MS St B :=
  fun s =>
    match m s with
    | (Ok a, s') => k a s'
    | (Throw e, s') => (Throw e, s')
    end.

Notation "'let!' x ':=' m 'in' k" := (bind m (fun x => k))
  (at level 10, x name, m at level 100, k at level 200, only parsing).

Notation "m ';;;' k" := (bind m (fun _ => k))
  (at level 100, k at level 200, right associativity, only parsing).

(** Dereferencing: a reference that denotes no object of the table reads
    as [undefined], and using it throws. *)
Definition deref {A} (table : heap -> list A) (l : loc) : M A :=
  fun h =>
    match table h !! l with
    | Some a => (Ok a, h)
    | None => (Throw TypeError, h)
    end.

Definition deref_opt {A} (table : heap -> list A) (l : option loc) : M A :=
  match l with
  | Some l => deref table l
  | None => throw TypeError
  end.

(** A counted loop [for (let i = lo; i < hi; i++) body(i)] whose body
    changes neither [i] nor [hi]: [n] is the number of iterations left. *)
Fixpoint for_count {St S : Type} (n : nat) (i : Z)
    (body : Z -> S -> MS St S) (s : S) : MS St S :=
  match n with
  | O => ret s
  | S n' => let! s' := body i s in for_count n' (i + 1) body s'
  end.

Definition for_loop {St S : Type} (lo hi : Z) (body : Z -> S -> MS St S)
    (s : S) : MS St S :=
  for_count (Z.to_nat (hi - lo)) lo body s.

(** [while (cond) body]: the loop as written, cut off by [fuel]. *)
Fixpoint while_loop {St S : Type} (fuel : nat) (cond : S -> bool)
    (body : S -> MS St S) (s : S) : MS St S :=
  if cond s then
    match fuel with
    | O => throw FuelExhausted
    | S fuel' => let! s' := body s in while_loop fuel' cond body s'
    end
  else ret s.

(* ================================================================== *)
(** ** core/data.ts *)

(** [new ArrayBuffer(length)]: a negative length is a RangeError; the new
    buffer is zero-filled.  Memory is not bounded: an allocation of a
    non-negative length succeeds. *)
Definition new_ArrayBuffer (len : Z) : M loc :=
  fun h =>
    if len <? 0 then (Throw RangeError, h)
    else (Ok (length (abufs h)),
          with_abufs (fun t => t ++ [replicate (Z.to_nat len) 0]) h).

(** [new Uint8Array(buffer)], [new Int32Array(buffer)], ...: a view over
    the whole buffer; a RangeError when the byte length of the buffer is
    not a multiple of the element size. *)
Definition new_TypedArray (k : ViewKind) (buffer : loc) : M unit :=
  let! bytes := deref abufs buffer in
  if Z.of_nat (length bytes) mod BYTES_PER_ELEMENT k =? 0 then ret tt
  else throw RangeError.

(** [(sizeInBytes + 7) & -8]. *)
Definition align8 (sizeInBytes : number) : Z :=
  bit_and (nadd sizeInBytes (Num 7)) (Num (-8)).

(** [new Data(sizeInBytes, existing)]. *)
Definition Data_new (sizeInBytes : number) (existing : option loc) : M loc :=
  let size := align8 sizeInBytes in
  let! buffer :=
    match existing with
    | Some b => ret b
    | None => new_ArrayBuffer size
    end in
  new_TypedArray u8 buffer;;;
  new_TypedArray i32 buffer;;;
  new_TypedArray f32 buffer;;;
  new_TypedArray f64 buffer;;;
  fun h => (Ok (length (datas h)),
            with_datas (fun t => t ++ [mkData size buffer]) h).

(* ================================================================== *)
(** ** core/matrix.ts *)

Definition set_matrix (this : loc) (m : Matrix) : M unit :=
  fun h => (Ok tt, with_matrices (fun t => <[this := m]> t) h).

(** [selectTypedView]: the view of [this.buffer] named by [this.type];
    no case of the switch matches another type and the result is then
    [undefined]. *)
Definition Matrix_selectTypedView (m : Matrix) : option TypedArray :=
  match Matrix_buffer m with
  | None => None
  | Some d =>
      let ty := Matrix_type m in
      if ty =? DataType_U8 then Some (mkTypedArray u8 d)
      else if ty =? DataType_S32 then Some (mkTypedArray i32 d)
      else if ty =? DataType_F32 then Some (mkTypedArray f32 d)
      else if ty =? DataType_S64 then Some (mkTypedArray f64 d)
      else if ty =? DataType_F64 then Some (mkTypedArray f64 d)
      else None
  end.

(** [allocate()]. *)
Definition Matrix_allocate (this : loc) : M unit :=
  let! m := deref matrices this in
  let elements := Matrix_cols m * Matrix_rows m * Matrix_channels m in
  let bytes := nmul (Num elements) (getDataTypeSize (Matrix_type m)) in
  let! d := Data_new bytes None in
  let m1 := mkMatrix (Matrix_cols m) (Matrix_rows m) (Matrix_type m)
              (Matrix_channels m) (Some d) (Matrix_data m) in
  set_matrix this
    (mkMatrix (Matrix_cols m) (Matrix_rows m) (Matrix_type m)
       (Matrix_channels m) (Some d) (Matrix_selectTypedView m1)).

(** [new Matrix(cols, rows, type, existingBuffer)]. *)
Definition Matrix_new (cols rows type : Z) (existingBuffer : option loc)
    : M loc :=
  fun h =>
    let this := length (matrices h) in
    let m0 := mkMatrix (or0 cols) (or0 rows) (getDataType type)
                (getChannel type) None None in
    let h0 := with_matrices (fun t => t ++ [m0]) h in
    match existingBuffer with
    | Some d =>
        let m1 := mkMatrix (Matrix_cols m0) (Matrix_rows m0) (Matrix_type m0)
                    (Matrix_channels m0) (Some d) None in
        (set_matrix this
           (mkMatrix (Matrix_cols m0) (Matrix_rows m0) (Matrix_type m0)
              (Matrix_channels m0) (Some d) (Matrix_selectTypedView m1));;;
         ret this) h0
    | None => (Matrix_allocate this;;; ret this) h0
    end.

(** [resize(cols, rows, ch = this.channels)]. *)
Definition Matrix_resize (this : loc) (cols rows : Z) (ch : option Z)
    : M unit :=
  let! m := deref matrices this in
  let ch := default (Matrix_channels m) ch in
  let newSize :=
    nmul (Num (cols * rows * ch)) (getDataTypeSize (Matrix_type m)) in
  set_matrix this
    (mkMatrix cols rows (Matrix_type m) ch (Matrix_buffer m) (Matrix_data m));;;
  let! d := deref_opt datas (Matrix_buffer m) in
  if ngt newSize (Data_size d) then Matrix_allocate this else ret tt.

(* ================================================================== *)
(** ** memory/pool.ts *)

Definition set_node (this : loc) (n : PoolNode) : M unit :=
  fun h => (Ok tt, with_nodes (fun t => <[this := n]> t) h).

(** [new PoolNode(sizeInBytes)]. *)
Definition PoolNode_new (sizeInBytes : Z) : M loc :=
  let! d := Data_new (Num sizeInBytes) None in
  let! D := deref datas d in
  fun h => (Ok (length (nodes h)),
            with_nodes (fun t => t ++ [mkPoolNode None d (Data_size D)]) h).

(** [resize(sizeInBytes)]. *)
Definition PoolNode_resize (this : loc) (sizeInBytes : Z) : M unit :=
  let! d := Data_new (Num sizeInBytes) None in
  let! D := deref datas d in
  let! n := deref nodes this in
  set_node this (mkPoolNode (PoolNode_next n) d (Data_size D)).

(* ================================================================== *)
(** ** memory/cache.ts *)

Definition set_cache (this : loc) (c : Cache) : M unit :=
  fun h => (Ok tt, with_caches (fun t => <[this := c]> t) h).

(** [new Cache()]: both fields start as [null]. *)
Definition Cache_new : M loc :=
  fun h => (Ok (length (caches h)),
            with_caches (fun t => t ++ [mkCache None None]) h).

(** [this.tail!.next = node]. *)
Definition set_tail_next (this : loc) (node : option loc) : M unit :=
  let! c := deref caches this in
  match Cache_tail c with
  | None => throw TypeError
  | Some t =>
      let! T := deref nodes t in
      set_node t (mkPoolNode node (PoolNode_data T) (PoolNode_size T))
  end.

(** [this.tail = node]. *)
Definition set_tail (this : loc) (node : option loc) : M unit :=
  let! c := deref caches this in
  set_cache this (mkCache (Cache_head c) node).

(** [allocate(capacity, sizeInBytes)]. *)
Definition Cache_allocate (this : loc) (capacity sizeInBytes : Z) : M unit :=
  let! node := PoolNode_new sizeInBytes in
  set_cache this (mkCache (Some node) (Some node));;;
  for_loop 0 capacity
    (fun _ _ =>
       let! next := PoolNode_new sizeInBytes in
       set_tail_next this (Some next);;;
       set_tail this (Some next))
    tt.

(** [get_buffer(sizeInBytes)]. *)
Definition Cache_get_buffer (this : loc) (sizeInBytes : Z) : M loc :=
  let! c := deref caches this in
  match Cache_head c with
  | None => throw CacheExhausted
  | Some node =>
      let! N := deref nodes node in
      set_cache this (mkCache (PoolNode_next N) (Cache_tail c));;;
      (if PoolNode_size N <? sizeInBytes
       then PoolNode_resize node sizeInBytes
       else ret tt);;;
      ret node
  end.

(** [put_buffer(node)]. *)
Definition Cache_put_buffer (this : loc) (node : loc) : M unit :=
  set_tail_next this (Some node);;;
  set_tail this (Some node);;;
  let! N := deref nodes node in
  set_node node (mkPoolNode None (PoolNode_data N) (PoolNode_size N)).

(* ================================================================== *)
(** ** core/pyramid.ts *)

(** class Pyramid.  [layers] is a JavaScript array: a slot that was never
    assigned, like an index out of range, reads as [undefined]. *)
Record Pyramid : Type := mkPyramid {
  Pyramid_levels : Z;
  Pyramid_layers : list (option loc)
}.

(** [this.layers[i]]. *)
Definition layer (this : Pyramid) (i : Z) : option loc :=
  if i <? 0 then None else mjoin (Pyramid_layers this !! Z.to_nat i).

Section PyramidBuild.
(** [build] only sequences calls: [copyTo] on the input matrix and the
    downsampling function it is given.  Both are parameters here, over
    any store [W]; they receive matrix references, not the pyramid, so
    they leave [levels] and [layers] as they are. *)
Context {W : Type}.
Variable copyTo : loc -> option loc -> MS W unit.
Variable pyrdown : option loc -> option loc -> MS W unit.

(** [build(input, pyrdown, skipFirst)]. *)
Definition Pyramid_build (this : Pyramid) (input : loc) (skipFirst : bool)
    : MS W unit :=
  (if negb skipFirst then copyTo input (layer this 0) else ret tt);;;
  let a := Some input in
  let b := layer this 1 in
  pyrdown a b;;;
  for_loop 2 (Pyramid_levels this)
    (fun i (ab : option loc * option loc) =>
       let a := snd ab in
       let b := layer this i in
       pyrdown a b;;;
       ret (a, b))
    (a, b);;;
  ret tt.

(** The calls [build] makes, as the design document lists them. *)
Inductive call : Type :=
| CopyTo (src : loc) (dst : option loc)
| Pyrdown (src dst : option loc).

Definition run_call (c : call) : MS W unit :=
  match c with
  | CopyTo src dst => copyTo src dst
  | Pyrdown src dst => pyrdown src dst
  end.

Fixpoint run_calls (cs : list call) : MS W unit :=
  match cs with
  | [] => ret tt
  | c :: cs' => run_call c;;; run_calls cs'
  end.

(** [downsampleFn(input, levels[1])], then
    [downsampleFn(levels[i-1], levels[i])] for [i] from 2 to
    [levels - 1]; before them the copy into level 0, unless
    [skipFirst]. *)
Definition build_calls (this : Pyramid) (input : loc) (skipFirst : bool)
    : list call :=
  (if skipFirst then [] else [CopyTo input (layer this 0)])
  ++ Pyrdown (Some input) (layer this 1)
  :: map (fun i => Pyrdown (layer this (i - 1)) (layer this i))
       (seqZ 2 (Pyramid_levels this - 2)).
End PyramidBuild.

(** The store that records the calls made, in order. *)
Definition log_call (c : call) : MS (list call) unit :=
  fun t => (Ok tt, t ++ [c]).

(* ================================================================== *)
(** ** Typed array element access *)

(** [n] little-endian bytes of [x]. *)
Fixpoint le_bytes (n : nat) (x : Z) : list Z :=
  match n with
  | O => []
  | S n' => x mod 256 :: le_bytes n' (x / 256)
  end.

(** The IEEE 754 bit pattern, with [ebits] exponent bits and [mbits]
    fraction bits, of the integer [v] rounded to nearest, ties to even. *)
Definition binary_bits (ebits mbits : Z) (v : Z) : Z :=
  if v =? 0 then 0
  else
    let s := if v <? 0 then 1 else 0 in
    let a := Z.abs v in
    let e := Z.log2 a in
    let bias := 2 ^ (ebits - 1) - 1 in
    let m :=
      if e <=? mbits then a * 2 ^ (mbits - e)
      else
        let sh := e - mbits in
        let q := a / 2 ^ sh in
        let r := a mod 2 ^ sh in
        let half := 2 ^ (sh - 1) in
        if (half <? r) || ((r =? half) && Z.odd q) then q + 1 else q in
    s * 2 ^ (ebits + mbits) + (e + bias) * 2 ^ mbits + (m - 2 ^ mbits).

(** The bytes of the 32-bit integer [v] stored as an element of kind [k]
    (little-endian platform). *)
Definition encode (k : ViewKind) (v : Z) : list Z :=
  match k with
  | u8 => [v mod 256]
  | i32 => le_bytes 4 (v mod 2 ^ 32)
  | f32 => le_bytes 4 (binary_bits 8 23 v)
  | f64 => le_bytes 8 (binary_bits 11 52 v)
  end.

(** Overwrite [bytes] from offset [off] with [new]. *)
Definition splice (off : nat) (new : list Z) (bytes : list Z) : list Z :=
  take off bytes ++ new ++ drop (off + length new) bytes.

(** [ta[j] = v] for a 32-bit integer [v]: a store outside the array is
    ignored; a store through [undefined] throws. *)
Definition TypedArray_set (ta : option TypedArray) (j v : Z) : M unit :=
  match ta with
  | None => throw TypeError
  | Some t =>
      let! D := deref datas (ta_owner t) in
      let! bytes := deref abufs (Data_buffer D) in
      let es := BYTES_PER_ELEMENT (ta_kind t) in
      if (0 <=? j) && (j <? Z.of_nat (length bytes) / es) then
        fun h =>
          (Ok tt,
           with_abufs
             (fun tb => <[Data_buffer D :=
                           splice (Z.to_nat (j * es)) (encode (ta_kind t) v)
                             bytes]> tb) h)
      else ret tt
  end.

(* ================================================================== *)
(** ** image/processing.ts *)

(** A byte of a Uint8Array as a binary64. *)
Definition byte_to_float (b : Z) : float :=
  PrimFloat.of_uint63 (Uint63.of_Z b).

(** The literals [0.299], [0.587], [0.114]: the binary64 nearest to each,
    which is what the correctly rounded quotient computes. *)
Definition WR : float := PrimFloat.div (byte_to_float 299) (byte_to_float 1000).
Definition WG : float := PrimFloat.div (byte_to_float 587) (byte_to_float 1000).
Definition WB : float := PrimFloat.div (byte_to_float 114) (byte_to_float 1000).

(** [src[k]] as it enters the arithmetic: an index outside the array reads
    [undefined], which multiplies to NaN. *)
Definition src_at (src : list Z) (k : Z) : float :=
  match (if k <? 0 then None else src !! Z.to_nat k) with
  | Some b => byte_to_float b
  | None => PrimFloat.nan
  end.

(** The integer part of a binary64, [0] for NaN and the infinities. *)
Definition float_trunc (f : float) : Z :=
  match Prim2SF f with
  | S754_finite s m e =>
      let a := match e with
               | Z.neg p => Z.shiftr (Z.pos m) (Z.pos p)
               | _ => Z.shiftl (Z.pos m) e
               end in
      if s then - a else a
  | _ => 0
  end.

(** [g | 0]. *)
Definition float_or0 (g : float) : Z := to_int32 (float_trunc g).

(** The source is an input value: a conversion in place, with [src] a
    view of the destination's own buffer, is outside the model. *)
Section GrayscaleLoops.
Context {St : Type}.
(** [dst_u8[j] = v]. *)
Variable store : Z -> Z -> MS St unit.
Variable src : list Z.
Variables (w h cn idxR idxG idxB : Z).

(** [WR * src[i + idxR] + WG * src[i + idxG] + WB * src[i + idxB]]. *)
Definition luminance (i : Z) : float :=
  PrimFloat.add
    (PrimFloat.add (PrimFloat.mul WR (src_at src (i + idxR)))
                   (PrimFloat.mul WG (src_at src (i + idxG))))
    (PrimFloat.mul WB (src_at src (i + idxB))).

(** The body of the unrolled loop, on the pair [(i, j)]. *)
Definition unrolled_body (ij : Z * Z) : MS St (Z * Z) :=
  let i := fst ij in
  let j := snd ij in
  let step := cn in
  let stride4 := cn * 4 in
  let g0 := luminance i in
  let g1 := luminance (i + step) in
  let g2 := luminance (i + step * 2) in
  let g3 := luminance (i + step * 3) in
  store j (float_or0 g0);;;
  store (j + 1) (float_or0 g1);;;
  store (j + 2) (float_or0 g2);;;
  store (j + 3) (float_or0 g3);;;
  ret (i + stride4, j + 4).

(** The body of the remainder loop. *)
Definition remainder_body (ij : Z * Z) : MS St (Z * Z) :=
  let i := fst ij in
  let j := snd ij in
  let step := cn in
  store j (float_or0 (luminance i));;;
  ret (i + step, j + 1).

(** One iteration of [for (let y = 0; y < h; y++)].  Each inner loop
    runs at most [w] times, which is the fuel it gets. *)
Definition grayscale_row (y : Z) : MS St unit :=
  let rowStartSrc := y * w * cn in
  let rowStartDst := y * w in
  let limit := rowStartDst + (w - 4) in
  let! ij := while_loop (Z.to_nat w) (fun ij => snd ij <=? limit)
               unrolled_body (rowStartSrc, rowStartDst) in
  let! ij := while_loop (Z.to_nat w) (fun ij => snd ij <? rowStartDst + w)
               remainder_body ij in
  ret tt.

Definition grayscale_rows : MS St unit :=
  for_loop 0 h (fun y _ => grayscale_row y) tt.

(** The reference: one pixel at a time, left to right in each row, rows
    top to bottom; pixel [p] is read at [p * cn] and written at [p]. *)
Definition reference_pixel (p : Z) : MS St unit :=
  store p (float_or0 (luminance (p * cn))).

Definition reference_rows : MS St unit :=
  for_loop 0 h
    (fun y _ => for_loop 0 w (fun x _ => reference_pixel (y * w + x)) tt)
    tt.

(** [n] consecutive pixels from pixel [p] on, one at a time. *)
Definition pixels (n : nat) (p : Z) : MS St unit :=
  for_count n p (fun q _ => reference_pixel q) tt.
End GrayscaleLoops.

(** The channel layout selected by the conversion code:
    [(cn, idxR, idxG, idxB)]. *)
Definition layout (code : Z) : Z * Z * Z * Z :=
  let cn := 4 in
  let idxR := 0 in
  let idxG := 1 in
  let idxB := 2 in
  let '(idxR, idxG, idxB) :=
    if (code =? BGRA2GRAY) || (code =? BGR2GRAY) then (2, 1, 0)
    else (idxR, idxG, idxB) in
  let cn := if (code =? RGB2GRAY) || (code =? BGR2GRAY) then 3 else cn in
  (cn, idxR, idxG, idxB).

(** [grayscale(src, w, h, dst, code)], with the pixel loops as a
    parameter. *)
Definition grayscale_with
    (rows : (Z -> Z -> M unit) -> list Z -> Z -> Z -> Z -> Z -> Z -> Z -> M unit)
    (src : list Z) (w h : Z) (dst : loc) (code : Z) : M unit :=
  let '(cn, idxR, idxG, idxB) := layout code in
  Matrix_resize dst w h (Some Channels_C1);;;
  let! m := deref matrices dst in
  let dst_u8 := Matrix_data m in
  rows (TypedArray_set dst_u8) src w h cn idxR idxG idxB.

Definition grayscale := grayscale_with (@grayscale_rows heap).

(** The same routine with the reference loop in place of the unrolled
    and remainder loops. *)
Definition grayscale_reference := grayscale_with (@reference_rows heap).

(** The store that records the writes made, in order. *)
Definition log_store (j v : Z) : MS (list (Z * Z)) unit :=
  fun t => (Ok tt, t ++ [(j, v)]).

(* ================================================================== *)
(** ** The operations of the library *)

(** The store a computation leaves, whatever its outcome. *)
Definition exec {A} (m : M A) (h : heap) : heap := snd (m h).

Inductive operation : Type :=
| OpDataNew (sizeInBytes : number) (existing : option loc)
| OpMatrixNew (cols rows type : Z) (existingBuffer : option loc)
| OpMatrixAllocate (this : loc)
| OpMatrixResize (this : loc) (cols rows : Z) (ch : option Z)
| OpPoolNodeNew (sizeInBytes : Z)
| OpPoolNodeResize (this : loc) (sizeInBytes : Z)
| OpCacheNew
| OpCacheAllocate (this : loc) (capacity sizeInBytes : Z)
| OpCacheGetBuffer (this : loc) (sizeInBytes : Z)
| OpCachePutBuffer (this node : loc)
| OpGrayscale (src : list Z) (w h : Z) (dst : loc) (code : Z).

Definition run_operation (op : operation) : heap -> heap :=
  match op with
  | OpDataNew n e => exec (Data_new n e)
  | OpMatrixNew c r t e => exec (Matrix_new c r t e)
  | OpMatrixAllocate this => exec (Matrix_allocate this)
  | OpMatrixResize this c r ch => exec (Matrix_resize this c r ch)
  | OpPoolNodeNew n => exec (PoolNode_new n)
  | OpPoolNodeResize this n => exec (PoolNode_resize this n)
  | OpCacheNew => exec Cache_new
  | OpCacheAllocate this c n => exec (Cache_allocate this c n)
  | OpCacheGetBuffer this n => exec (Cache_get_buffer this n)
  | OpCachePutBuffer this node => exec (Cache_put_buffer this node)
  | OpGrayscale src w h dst code => exec (grayscale src w h dst code)
  end.

(** A computation that leaves every existing [Data] object as it is. *)
Definition keeps_datas {A} (m : M A) : Prop :=
  forall h, datas h `prefix_of` datas (snd (m h)).

(** The bytes a matrix needs, as [allocate] computes them. *)
Definition Matrix_bytes (m : Matrix) : number :=
  nmul (Num (Matrix_cols m * Matrix_rows m * Matrix_channels m))
       (getDataTypeSize (Matrix_type m)).

(** The matrix [allocate] leaves, bound to the new [Data] object [d]. *)
Definition Matrix_rebound (m : Matrix) (d : loc) : Matrix :=
  let m1 := mkMatrix (Matrix_cols m) (Matrix_rows m) (Matrix_type m)
              (Matrix_channels m) (Some d) (Matrix_data m) in
  mkMatrix (Matrix_cols m) (Matrix_rows m) (Matrix_type m)
    (Matrix_channels m) (Some d) (Matrix_selectTypedView m1).

(** The invariant of the design document: the size recorded in the
    buffer of the matrix covers [cols * rows * channels] elements. *)
Definition Matrix_invariant (h : heap) (this : loc) : Prop :=
  exists m d D es,
    matrices h !! this = Some m
    /\ Matrix_buffer m = Some d
    /\ datas h !! d = Some D
    /\ DATA_TYPE_SIZE (Matrix_type m) = Some es
    /\ Matrix_cols m * Matrix_rows m * Matrix_channels m * es <= Data_size D.

(** The calls after which the design document states the invariant:
    construction without a buffer, [allocate] and [resize]. *)
Inductive matrix_call : Type :=
| CallNew (cols rows type : Z)
| CallAllocate (this : loc)
| CallResize (this : loc) (cols rows : Z) (ch : option Z).

(** The call, returning the matrix it ran on. *)
Definition run_matrix_call (c : matrix_call) : M loc :=
  match c with
  | CallNew cols rows type => Matrix_new cols rows type None
  | CallAllocate this => Matrix_allocate this;;; ret this
  | CallResize this cols rows ch => Matrix_resize this cols rows ch;;; ret this
  end.

(** A pool node whose [size] is the size recorded in its buffer, which is
    the byte length of the ArrayBuffer behind it. *)
Definition node_honest (h : heap) (node : loc) : Prop :=
  exists N D buf,
    nodes h !! node = Some N
    /\ datas h !! PoolNode_data N = Some D
    /\ PoolNode_size N = Data_size D
    /\ abufs h !! Data_buffer D = Some buf
    /\ Z.of_nat (length buf) = Data_size D.

(** Two computations that do the same from every store. *)
Definition meq {St A} (m1 m2 : MS St A) : Prop := forall s, m1 s = m2 s.

Infix "=~=" := meq (at level 70, no associativity).

(** The solid 8x2 RGBA image of the design document. *)
Definition solid_pixel : list Z := [200; 100; 50; 255].

Definition solid_8x2 : list Z := concat (replicate 16 solid_pixel).

(** A matrix of bytes whose view is the byte view of its buffer, over an
    ArrayBuffer that holds at least the size the buffer records. *)
Definition Matrix_u8_ok (h : heap) (dst : loc) : Prop :=
  exists m d D buf,
    matrices h !! dst = Some m
    /\ Matrix_type m = DataType_U8
    /\ Matrix_buffer m = Some d
    /\ Matrix_data m = Some (mkTypedArray u8 d)
    /\ datas h !! d = Some D
    /\ abufs h !! Data_buffer D = Some buf
    /\ Data_size D <= Z.of_nat (length buf).

(** The bytes read through [dst.data]. *)
Definition Matrix_data_bytes (h : heap) (dst : loc) : option (list Z) :=
  match matrices h !! dst with
  | Some m =>
      match Matrix_data m with
      | Some ta =>
          match datas h !! ta_owner ta with
          | Some D => abufs h !! Data_buffer D
          | None => None
          end
      | None => None
      end
  | None => None
  end.

(** A store into a Uint8Array, on the bytes alone: outside the array it
    does nothing. *)
Definition u8_store (j v : Z) : MS (list Z) unit :=
  fun buf => (Ok tt, if j <? 0 then buf else <[Z.to_nat j := v mod 256]> buf).

(** A computation that never ends for lack of fuel. *)
Definition terminates {St A} (m : MS St A) : Prop :=
  forall s, fst (m s) <> Throw FuelExhausted.

(* ================================================================== *)
(** * Properties *)

(** ** Arithmetic of the alignment *)

Lemma to_int32_id (z : Z) : - 2^31 <= z < 2^31 -> to_int32 z = z.
Proof.
  intros Hz. unfold to_int32.
  rewrite Z.mod_small; lia.
Qed.

Lemma to_int32_range (z : Z) : - 2^31 <= to_int32 z < 2^31.
Proof.
  unfold to_int32.
  pose proof (Z.mod_pos_bound (z + 2^31) (2^32) ltac:(lia)). lia.
Qed.

Lemma land_minus8 (y : Z) : Z.land y (-8) = 8 * (y / 8).
Proof.
  change (-8) with (Z.lnot (Z.ones 3)).
  change (Z.land y (Z.lnot (Z.ones 3))) with (Z.ldiff y (Z.ones 3)).
  rewrite Z.ldiff_ones_r by lia.
  rewrite Z.shiftl_mul_pow2, Z.shiftr_div_pow2 by lia.
  change (2 ^ 3) with 8. lia.
Qed.

Lemma align8_eq (n : number) : align8 n = 8 * (ToInt32 (nadd n (Num 7)) / 8).
Proof.
  unfold align8, bit_and.
  change (ToInt32 (Num (-8))) with (-8).
  apply land_minus8.
Qed.

Lemma align8_multiple (n : number) : align8 n mod 8 = 0.
Proof.
  rewrite align8_eq, Z.mul_comm. apply Z.mod_mul. lia.
Qed.

Lemma align8_in_range (n : Z) :
  - 2^31 - 7 <= n <= 2^31 - 8 ->
  align8 (Num n) = 8 * ((n + 7) / 8).
Proof.
  intros Hn. rewrite align8_eq. simpl.
  rewrite to_int32_id by lia. reflexivity.
Qed.

Lemma align8_ge (n : Z) : n <= 2^31 - 8 -> n <= align8 (Num n).
Proof.
  intros Hn. rewrite align8_eq. simpl.
  destruct (Z_le_gt_dec (- 2^31 - 7) n) as [Hlo|Hlo].
  - rewrite to_int32_id by lia.
    pose proof (Z.mod_pos_bound (n + 7) 8 ltac:(lia)).
    pose proof (Z.div_mod (n + 7) 8 ltac:(lia)). lia.
  - pose proof (to_int32_range (n + 7)) as Hr.
    assert (- 2^31 <= 8 * (to_int32 (n + 7) / 8)).
    { pose proof (Z.div_le_mono (- 2^31) (to_int32 (n + 7)) 8 ltac:(lia)
                    ltac:(lia)) as Hd.
      change (- 2^31 / 8) with (- 2^28) in Hd. lia. }
    lia.
Qed.

Lemma align8_lt (n : Z) :
  - 2^31 - 7 <= n <= 2^31 - 8 -> align8 (Num n) < n + 8.
Proof.
  intros Hn. rewrite align8_in_range by lia.
  pose proof (Z.mod_pos_bound (n + 7) 8 ltac:(lia)).
  pose proof (Z.div_mod (n + 7) 8 ltac:(lia)). lia.
Qed.


(** ** The constructor of [Data] *)

Lemma lookup_snoc {A} (l : list A) (x : A) : (l ++ [x]) !! length l = Some x.
Proof.
  rewrite lookup_app_r by lia.
  rewrite Nat.sub_diag. reflexivity.
Qed.


(** ** Running a computation *)

Lemma bind_ok {St A B} (m : MS St A) (k : A -> MS St B) s a s' :
  m s = (Ok a, s') -> bind m k s = k a s'.
Proof. intros H. unfold bind. rewrite H. reflexivity. Qed.

Lemma bind_throw {St A B} (m : MS St A) (k : A -> MS St B) s e s' :
  m s = (Throw e, s') -> bind m k s = (Throw e, s').
Proof. intros H. unfold bind. rewrite H. reflexivity. Qed.

Lemma deref_ok {A} (table : heap -> list A) (l : loc) (a : A) (h : heap) :
  table h !! l = Some a -> deref table l h = (Ok a, h).
Proof. intros H. unfold deref. rewrite H. reflexivity. Qed.

Lemma deref_none {A} (table : heap -> list A) (l : loc) (h : heap) :
  table h !! l = None -> deref table l h = (Throw TypeError, h).
Proof. intros H. unfold deref. rewrite H. reflexivity. Qed.

Lemma multiple_of_8 (x : Z) (k : ViewKind) :
  x mod 8 = 0 -> x mod BYTES_PER_ELEMENT k = 0.
Proof.
  intros H8.
  pose proof (Z.div_mod x 8 ltac:(lia)) as Hd.
  destruct k; simpl.
  - apply Z.mod_1_r.
  - replace x with ((2 * (x / 8)) * 4) by lia. apply Z.mod_mul. lia.
  - replace x with ((2 * (x / 8)) * 4) by lia. apply Z.mod_mul. lia.
  - exact H8.
Qed.

Lemma new_TypedArray_eval (k : ViewKind) (b : loc) (bytes : list Z) (h : heap) :
  abufs h !! b = Some bytes ->
  new_TypedArray k b h =
  if Z.of_nat (length bytes) mod BYTES_PER_ELEMENT k =? 0
  then (Ok tt, h) else (Throw RangeError, h).
Proof.
  intros Hb. unfold new_TypedArray.
  rewrite (bind_ok _ _ _ _ _ (deref_ok abufs b bytes h Hb)).
  destruct (_ =? 0); reflexivity.
Qed.

Lemma new_TypedArray_ok (k : ViewKind) (b : loc) (bytes : list Z) (h : heap) :
  abufs h !! b = Some bytes ->
  Z.of_nat (length bytes) mod 8 = 0 ->
  new_TypedArray k b h = (Ok tt, h).
Proof.
  intros Hb Hlen. rewrite (new_TypedArray_eval k b bytes h Hb).
  rewrite (multiple_of_8 _ k Hlen). reflexivity.
Qed.

(** The views over a buffer whose length is a multiple of 8 are all
    created. *)
Lemma views_ok (b : loc) (bytes : list Z) (h : heap) {A} (k : M A) :
  abufs h !! b = Some bytes ->
  Z.of_nat (length bytes) mod 8 = 0 ->
  (new_TypedArray u8 b;;; new_TypedArray i32 b;;; new_TypedArray f32 b;;;
   new_TypedArray f64 b;;; k) h = k h.
Proof.
  intros Hb Hlen.
  rewrite (bind_ok _ _ _ _ _ (new_TypedArray_ok u8 b bytes h Hb Hlen)).
  rewrite (bind_ok _ _ _ _ _ (new_TypedArray_ok i32 b bytes h Hb Hlen)).
  rewrite (bind_ok _ _ _ _ _ (new_TypedArray_ok f32 b bytes h Hb Hlen)).
  rewrite (bind_ok _ _ _ _ _ (new_TypedArray_ok f64 b bytes h Hb Hlen)).
  reflexivity.
Qed.

(** Allocation: the outcome of [new Data(n)]. *)
Lemma Data_new_alloc (n : number) (h : heap) :
  Data_new n None h =
  if align8 n <? 0 then (Throw RangeError, h)
  else (Ok (length (datas h)),
        mkHeap (abufs h ++ [replicate (Z.to_nat (align8 n)) 0])
               (datas h ++ [mkData (align8 n) (length (abufs h))])
               (matrices h) (nodes h) (caches h)).
Proof.
  unfold Data_new.
  unfold bind at 1. unfold new_ArrayBuffer.
  destruct (align8 n <? 0) eqn:Hneg; [reflexivity|].
  apply Z.ltb_ge in Hneg.
  erewrite views_ok.
  - reflexivity.
  - simpl. apply lookup_snoc.
  - rewrite length_replicate, Z2Nat.id by lia. apply align8_multiple.
Qed.

(** Wrapping: the outcome of [new Data(n, existing)]. *)
Lemma Data_new_wrap (n : number) (b : loc) (bytes : list Z) (h : heap) :
  abufs h !! b = Some bytes ->
  Data_new n (Some b) h =
  if Z.of_nat (length bytes) mod 8 =? 0
  then (Ok (length (datas h)),
        with_datas (fun t => t ++ [mkData (align8 n) b]) h)
  else (Throw RangeError, h).
Proof.
  intros Hb. unfold Data_new.
  destruct (Z.of_nat (length bytes) mod 8 =? 0) eqn:H8.
  - apply Z.eqb_eq in H8.
    unfold bind at 1. unfold ret at 1.
    erewrite views_ok; eauto.
  - apply Z.eqb_neq in H8.
    unfold bind at 1. unfold ret at 1.
    pose proof (new_TypedArray_eval u8 b bytes h Hb) as E1.
    simpl BYTES_PER_ELEMENT in E1. rewrite Z.mod_1_r in E1. simpl in E1.
    rewrite (bind_ok _ _ _ _ _ E1).
    pose proof (new_TypedArray_eval i32 b bytes h Hb) as E2.
    pose proof (new_TypedArray_eval f32 b bytes h Hb) as E3.
    pose proof (new_TypedArray_eval f64 b bytes h Hb) as E4.
    simpl BYTES_PER_ELEMENT in E2, E3, E4.
    destruct (Z.of_nat (length bytes) mod 4 =? 0).
    + rewrite (bind_ok _ _ _ _ _ E2), (bind_ok _ _ _ _ _ E3).
      destruct (Z.of_nat (length bytes) mod 8 =? 0) eqn:H8'.
      * apply Z.eqb_eq in H8'. contradiction.
      * rewrite (bind_throw _ _ _ _ _ E4). reflexivity.
    + rewrite (bind_throw _ _ _ _ _ E2). reflexivity.
Qed.

(** ** No method changes a [Data] object *)

Lemma keeps_ret {A} (a : A) : keeps_datas (ret a).
Proof. intros h. reflexivity. Qed.

Lemma keeps_throw {A} (e : error) : keeps_datas (@throw heap A e).
Proof. intros h. reflexivity. Qed.

Lemma keeps_bind {A B} (m : M A) (k : A -> M B) :
  keeps_datas m -> (forall a, keeps_datas (k a)) -> keeps_datas (bind m k).
Proof.
  intros Hm Hk h. unfold bind.
  specialize (Hm h). destruct (m h) as [[a|e] h1]; simpl in *.
  - etransitivity; [exact Hm|]. apply Hk.
  - exact Hm.
Qed.

Lemma keeps_deref {A} (table : heap -> list A) (l : loc) :
  keeps_datas (deref table l).
Proof. intros h. unfold deref. destruct (table h !! l); reflexivity. Qed.

Lemma keeps_deref_opt {A} (table : heap -> list A) (l : option loc) :
  keeps_datas (deref_opt table l).
Proof. destruct l; [apply keeps_deref | apply keeps_throw]. Qed.

Lemma keeps_if {A} (b : bool) (m1 m2 : M A) :
  keeps_datas m1 -> keeps_datas m2 -> keeps_datas (if b then m1 else m2).
Proof. destruct b; auto. Qed.

Lemma keeps_set_matrix this m : keeps_datas (set_matrix this m).
Proof. intros h. reflexivity. Qed.

Lemma keeps_set_node this n : keeps_datas (set_node this n).
Proof. intros h. reflexivity. Qed.

Lemma keeps_set_cache this c : keeps_datas (set_cache this c).
Proof. intros h. reflexivity. Qed.

Lemma keeps_for_count {S} (body : Z -> S -> M S) :
  (forall i s, keeps_datas (body i s)) ->
  forall n i s, keeps_datas (for_count n i body s).
Proof.
  intros Hb n. induction n as [|n IH]; intros i s; simpl.
  - apply keeps_ret.
  - apply keeps_bind; [apply Hb | intros s'; apply IH].
Qed.

Lemma keeps_while_loop {S} (cond : S -> bool) (body : S -> M S) :
  (forall s, keeps_datas (body s)) ->
  forall fuel s, keeps_datas (while_loop fuel cond body s).
Proof.
  intros Hb fuel. induction fuel as [|fuel IH]; intros s; simpl.
  - destruct (cond s); [apply keeps_throw | apply keeps_ret].
  - destruct (cond s); [|apply keeps_ret].
    apply keeps_bind; [apply Hb | intros s'; apply IH].
Qed.

Create HintDb frame.

#[local] Hint Resolve keeps_ret keeps_throw keeps_deref keeps_deref_opt
  keeps_set_matrix keeps_set_node keeps_set_cache : frame.

Ltac frame :=
  repeat first
    [ progress eauto with frame
    | apply keeps_bind; [|intros ?]
    | apply keeps_if
    | apply keeps_for_count; intros ? ?
    | apply keeps_while_loop; intros ?
    | match goal with
      | |- keeps_datas (match ?x with _ => _ end) => destruct x
      end ].

Lemma keeps_new_ArrayBuffer len : keeps_datas (new_ArrayBuffer len).
Proof.
  intros h. unfold new_ArrayBuffer. destruct (len <? 0); reflexivity.
Qed.

Lemma keeps_new_TypedArray k b : keeps_datas (new_TypedArray k b).
Proof. unfold new_TypedArray. frame. Qed.

#[local] Hint Resolve keeps_new_ArrayBuffer keeps_new_TypedArray : frame.

Lemma keeps_Data_new n existing : keeps_datas (Data_new n existing).
Proof.
  unfold Data_new. frame.
  intros h. simpl. apply prefix_app_r. reflexivity.
Qed.

#[local] Hint Resolve keeps_Data_new : frame.

Lemma keeps_Matrix_allocate this : keeps_datas (Matrix_allocate this).
Proof. unfold Matrix_allocate. frame. Qed.

#[local] Hint Resolve keeps_Matrix_allocate : frame.

Lemma keeps_Matrix_new c r t e : keeps_datas (Matrix_new c r t e).
Proof.
  intros h. unfold Matrix_new.
  destruct e as [d|].
  - match goal with
    | |- context [?m (with_matrices ?f h)] =>
        assert (Hk : keeps_datas m) by frame;
        exact (Hk (with_matrices f h))
    end.
  - match goal with
    | |- context [?m (with_matrices ?f h)] =>
        assert (Hk : keeps_datas m) by frame;
        exact (Hk (with_matrices f h))
    end.
Qed.

Lemma keeps_Matrix_resize this c r ch : keeps_datas (Matrix_resize this c r ch).
Proof. unfold Matrix_resize. frame. Qed.

Lemma keeps_PoolNode_new n : keeps_datas (PoolNode_new n).
Proof.
  unfold PoolNode_new. frame. intros h. reflexivity.
Qed.

Lemma keeps_PoolNode_resize this n : keeps_datas (PoolNode_resize this n).
Proof. unfold PoolNode_resize. frame. Qed.

#[local] Hint Resolve keeps_Matrix_resize keeps_PoolNode_new
  keeps_PoolNode_resize : frame.

Lemma keeps_Cache_new : keeps_datas Cache_new.
Proof. intros h. reflexivity. Qed.

Lemma keeps_set_tail_next this node : keeps_datas (set_tail_next this node).
Proof. unfold set_tail_next. frame. Qed.

Lemma keeps_set_tail this node : keeps_datas (set_tail this node).
Proof. unfold set_tail. frame. Qed.

#[local] Hint Resolve keeps_set_tail_next keeps_set_tail : frame.

Lemma keeps_Cache_allocate this c n : keeps_datas (Cache_allocate this c n).
Proof. unfold Cache_allocate, for_loop. frame. Qed.

Lemma keeps_Cache_get_buffer this n : keeps_datas (Cache_get_buffer this n).
Proof. unfold Cache_get_buffer. frame. Qed.

Lemma keeps_Cache_put_buffer this node :
  keeps_datas (Cache_put_buffer this node).
Proof. unfold Cache_put_buffer. frame. Qed.

Lemma keeps_TypedArray_set ta j v : keeps_datas (TypedArray_set ta j v).
Proof.
  unfold TypedArray_set. frame. intros h. reflexivity.
Qed.

#[local] Hint Resolve keeps_TypedArray_set : frame.

Lemma keeps_grayscale src w h dst code :
  keeps_datas (grayscale src w h dst code).
Proof.
  unfold grayscale, grayscale_with.
  destruct (layout code) as [[[cn idxR] idxG] idxB].
  frame.
Qed.

Lemma run_operation_keeps (op : operation) (h : heap) :
  datas h `prefix_of` datas (run_operation op h).
Proof.
  destruct op; simpl; unfold exec.
  - apply keeps_Data_new.
  - apply keeps_Matrix_new.
  - apply keeps_Matrix_allocate.
  - apply keeps_Matrix_resize.
  - apply keeps_PoolNode_new.
  - apply keeps_PoolNode_resize.
  - apply keeps_Cache_new.
  - apply keeps_Cache_allocate.
  - apply keeps_Cache_get_buffer.
  - apply keeps_Cache_put_buffer.
  - apply keeps_grayscale.
Qed.

(** ** AlignedBuffer ([Data]) *)

(** What a successful [new Data] adds to the store. *)
Lemma Data_new_result (n : number) (existing : option loc) (h h' : heap)
    (l : loc) :
  Data_new n existing h = (Ok l, h') ->
  l = length (datas h) /\
  exists b, datas h' = datas h ++ [mkData (align8 n) b]
            /\ from_option (fun b0 => b = b0 /\ abufs h' = abufs h)
                 (b = length (abufs h)
                  /\ abufs h' = abufs h ++ [replicate (Z.to_nat (align8 n)) 0])
                 existing
            /\ matrices h' = matrices h /\ nodes h' = nodes h
            /\ caches h' = caches h.
Proof.
  destruct existing as [b|]; simpl.
  - destruct (abufs h !! b) as [bytes|] eqn:Hb.
    + rewrite (Data_new_wrap n b bytes h Hb).
      destruct (_ =? 0); intros [= <- <-]. split; [reflexivity|].
      exists b. simpl. auto.
    + unfold Data_new. unfold bind at 1. unfold ret at 1.
      erewrite bind_throw; [intros [=]|].
      unfold new_TypedArray. erewrite bind_throw; [reflexivity|].
      apply deref_none. exact Hb.
  - rewrite Data_new_alloc.
    destruct (align8 n <? 0); intros [= <- <-]. split; [reflexivity|].
    exists (length (abufs h)). simpl. auto.
Qed.

Lemma run_operations_keep (ops : list operation) (h : heap) (l : loc)
    (D : Data) :
  datas h !! l = Some D ->
  datas (foldl (fun h0 op => run_operation op h0) h ops) !! l = Some D.
Proof.
  revert h. induction ops as [|op ops IH]; intros h Hl; simpl.
  - exact Hl.
  - apply IH.
    eapply prefix_lookup_Some; [exact Hl | apply run_operation_keeps].
Qed.

(** C9, as stated, fails: a request of [2^32] bytes constructs a buffer
    whose recorded size is [0]. *)
Lemma Data_size_wraps :
  exists l h D,
    Data_new (Num 4294967296) None empty_heap = (Ok l, h)
    /\ datas h !! l = Some D
    /\ Data_size D = bit_and (Num (4294967296 + 7)) (Num (Z.lnot 7))
    /\ ~ (4294967296 <= Data_size D).
Proof.
  exists 0%nat. eexists. eexists.
  split; [vm_compute; reflexivity|].
  split; [reflexivity|].
  split; [reflexivity|].
  simpl. lia.
Qed.

(** C9 (amended): for every requested byte size [n] with
    [0 <= n <= 2^31 - 8], the constructed buffer's recorded size equals
    [(n+7) & ~7], is a multiple of 8 and is at least [n] (and below
    [n + 8]); no sequence of operations of the library changes the size
    recorded in that buffer. *)
Theorem Data_size_aligned (n : Z) (existing : option loc) (h h' : heap)
    (l : loc) :
  0 <= n <= 2^31 - 8 ->
  Data_new (Num n) existing h = (Ok l, h') ->
  exists D,
    datas h' !! l = Some D
    /\ Data_size D = Z.land (n + 7) (Z.lnot 7)
    /\ Data_size D mod 8 = 0
    /\ n <= Data_size D < n + 8
    /\ forall ops : list operation,
         datas (foldl (fun h0 op => run_operation op h0) h' ops) !! l
         = Some D.
Proof.
  intros Hn Hnew.
  destruct (Data_new_result _ _ _ _ _ Hnew) as (-> & b & Hd & _).
  exists (mkData (align8 (Num n)) b).
  assert (Hl : datas h' !! length (datas h) = Some (mkData (align8 (Num n)) b)).
  { rewrite Hd. apply lookup_snoc. }
  split; [exact Hl|]. simpl.
  split.
  { change (Z.lnot 7) with (-8). rewrite land_minus8.
    apply align8_in_range. lia. }
  split; [apply align8_multiple|].
  split.
  { split; [apply align8_ge; lia | apply align8_lt; lia]. }
  intros ops. apply run_operations_keep. exact Hl.
Qed.

Lemma Data_size_aligned_witness :
  exists D,
    datas (snd (Data_new (Num 13) None empty_heap)) !! 0%nat = Some D
    /\ Data_size D = 16.
Proof.
  destruct (Data_size_aligned 13 None empty_heap
              (snd (Data_new (Num 13) None empty_heap)) 0%nat)
    as (D & HD & Hs & _).
  - lia.
  - vm_compute. reflexivity.
  - exists D. split; [exact HD|]. rewrite Hs. reflexivity.
Defined.



(** ** Matrix *)

Lemma Matrix_allocate_eval (this : loc) (m : Matrix) (h : heap) :
  matrices h !! this = Some m ->
  Matrix_allocate this h =
  let size := align8 (Matrix_bytes m) in
  if size <? 0 then (Throw RangeError, h)
  else (Ok tt,
        mkHeap (abufs h ++ [replicate (Z.to_nat size) 0])
               (datas h ++ [mkData size (length (abufs h))])
               (<[this := Matrix_rebound m (length (datas h))]> (matrices h))
               (nodes h) (caches h)).
Proof.
  intros Hm. unfold Matrix_allocate.
  rewrite (bind_ok _ _ _ _ _ (deref_ok matrices this m h Hm)).
  fold (Matrix_bytes m). cbv zeta.
  unfold bind. rewrite Data_new_alloc.
  destruct (align8 (Matrix_bytes m) <? 0); reflexivity.
Qed.

Lemma Matrix_resize_eval (this : loc) (m : Matrix) (d : loc) (D : Data)
    (cols rows : Z) (ch : option Z) (h : heap) :
  matrices h !! this = Some m ->
  Matrix_buffer m = Some d ->
  datas h !! d = Some D ->
  let ch' := default (Matrix_channels m) ch in
  let m1 := mkMatrix cols rows (Matrix_type m) ch' (Some d) (Matrix_data m) in
  let h1 := with_matrices (fun t => <[this := m1]> t) h in
  Matrix_resize this cols rows ch h =
  if ngt (Matrix_bytes m1) (Data_size D) then Matrix_allocate this h1
  else (Ok tt, h1).
Proof.
  intros Hm Hbuf HD. unfold Matrix_resize.
  rewrite (bind_ok _ _ _ _ _ (deref_ok matrices this m h Hm)).
  cbv zeta. rewrite Hbuf.
  unfold bind at 1. unfold set_matrix at 1.
  unfold deref_opt.
  erewrite bind_ok; [|apply deref_ok; simpl; exact HD].
  unfold Matrix_bytes. simpl.
  destruct (ngt _ _); reflexivity.
Qed.

Lemma lookup_insert_same {A} (l : list A) (i : nat) (x y : A) :
  l !! i = Some y -> <[i := x]> l !! i = Some x.
Proof.
  intros H. apply list_lookup_insert_eq.
  eapply lookup_lt_Some. exact H.
Qed.

(** C1, as stated, fails: a resize that needs [2^32] bytes, more than the
    buffer holds, completes with a new buffer of capacity [0]. *)
Lemma Matrix_resize_wraps :
  let U8C1 := Z.lor DataType_U8 Channels_C1 in
  exists this h0 h1 m0 m1 d0 d1 D0 D1 buf,
    Matrix_new 0 0 U8C1 None empty_heap = (Ok this, h0)
    /\ matrices h0 !! this = Some m0 /\ Matrix_buffer m0 = Some d0
    /\ datas h0 !! d0 = Some D0
    /\ Data_size D0 < 65536 * 65536 * 1 * 1
    /\ Matrix_resize this 65536 65536 None h0 = (Ok tt, h1)
    /\ matrices h1 !! this = Some m1 /\ Matrix_buffer m1 = Some d1
    /\ d1 <> d0
    /\ datas h1 !! d1 = Some D1 /\ abufs h1 !! Data_buffer D1 = Some buf
    /\ ~ (65536 * 65536 * 1 * 1 <= Data_size D1)
    /\ ~ (65536 * 65536 * 1 * 1 <= Z.of_nat (length buf)).
Proof.
  intros U8C1.
  exists 0%nat. do 2 eexists. do 2 eexists. exists 0%nat, 1%nat.
  do 3 eexists.
  split; [vm_compute; reflexivity|].
  split; [reflexivity|]. split; [reflexivity|]. split; [reflexivity|].
  split; [simpl; lia|].
  split; [vm_compute; reflexivity|].
  split; [reflexivity|]. split; [reflexivity|]. split; [discriminate|].
  split; [reflexivity|]. split; [reflexivity|].
  split; simpl; lia.
Qed.

(** C1 (amended): [resize(c, r, ch)] with [c*r*ch*elementSize] at most
    the size recorded in the current buffer updates the logical
    dimensions and leaves the buffer, the active view and the store of
    buffers unchanged; with a required byte count that exceeds that size
    and is at most [2^31 - 8], it binds the matrix to a newly created
    buffer whose recorded size and byte length are at least the bytes
    required. *)
Theorem Matrix_resize_lazy (this : loc) (m : Matrix) (d : loc) (D : Data)
    (es cols rows : Z) (ch : option Z) (h : heap) :
  matrices h !! this = Some m ->
  Matrix_buffer m = Some d ->
  datas h !! d = Some D ->
  DATA_TYPE_SIZE (Matrix_type m) = Some es ->
  let ch' := default (Matrix_channels m) ch in
  let bytes := cols * rows * ch' * es in
  (bytes <= Data_size D ->
   exists h',
     Matrix_resize this cols rows ch h = (Ok tt, h')
     /\ matrices h' !! this
        = Some (mkMatrix cols rows (Matrix_type m) ch' (Some d) (Matrix_data m))
     /\ datas h' = datas h /\ abufs h' = abufs h)
  /\ (Data_size D < bytes -> 0 <= bytes <= 2^31 - 8 ->
      exists h' m' d' D' buf,
        Matrix_resize this cols rows ch h = (Ok tt, h')
        /\ matrices h' !! this = Some m'
        /\ Matrix_cols m' = cols /\ Matrix_rows m' = rows
        /\ Matrix_channels m' = ch' /\ Matrix_type m' = Matrix_type m
        /\ Matrix_buffer m' = Some d'
        /\ Matrix_data m' = Matrix_selectTypedView m'
        /\ datas h !! d' = None /\ datas h' !! d' = Some D'
        /\ abufs h !! Data_buffer D' = None
        /\ abufs h' !! Data_buffer D' = Some buf
        /\ Z.of_nat (length buf) = Data_size D'
        /\ bytes <= Data_size D').
Proof.
  intros Hm Hbuf HD Hes ch' bytes.
  pose proof (Matrix_resize_eval this m d D cols rows ch h Hm Hbuf HD) as E.
  cbv zeta in E. fold ch' in E.
  assert (Hbytes : Matrix_bytes
            (mkMatrix cols rows (Matrix_type m) ch' (Some d) (Matrix_data m))
          = Num bytes).
  { unfold Matrix_bytes, getDataTypeSize. simpl. rewrite Hes. reflexivity. }
  rewrite Hbytes in E. simpl ngt in E.
  split.
  - intros Hle.
    assert (Hlt : (Data_size D <? bytes) = false) by (apply Z.ltb_ge; lia).
    rewrite Hlt in E. eexists. split; [exact E|].
    split; [|split; reflexivity].
    simpl. eapply lookup_insert_same. exact Hm.
  - intros Hgt Hrange.
    assert (Hlt : (Data_size D <? bytes) = true) by (apply Z.ltb_lt; lia).
    rewrite Hlt in E.
    erewrite Matrix_allocate_eval in E
      by (simpl; eapply lookup_insert_same; exact Hm).
    cbv zeta in E. rewrite Hbytes in E.
    pose proof (align8_ge bytes ltac:(lia)) as Hge.
    assert (Hnn : (align8 (Num bytes) <? 0) = false) by (apply Z.ltb_ge; lia).
    rewrite Hnn in E. simpl in E.
    do 5 eexists. split; [exact E|]. simpl.
    split.
    { rewrite list_insert_insert_eq. eapply lookup_insert_same. exact Hm. }
    simpl.
    repeat (split; [reflexivity|]).
    split; [apply lookup_ge_None; lia|].
    split; [apply lookup_snoc|]. simpl.
    split; [apply lookup_ge_None; lia|].
    split; [apply lookup_snoc|].
    split; [rewrite length_replicate; lia|].
    exact Hge.
Qed.

Lemma Matrix_resize_lazy_witness :
  let h0 := snd (Matrix_new 8 2 (Z.lor DataType_U8 Channels_C1) None
                   empty_heap) in
  exists h',
    Matrix_resize 0%nat 4 2 None h0 = (Ok tt, h')
    /\ matrices h' !! 0%nat
       = Some (mkMatrix 4 2 DataType_U8 1 (Some 0%nat)
                 (Some (mkTypedArray u8 0%nat)))
    /\ datas h' = datas h0 /\ abufs h' = abufs h0.
Proof.
  intros h0.
  refine (proj1 (Matrix_resize_lazy 0%nat
                   (mkMatrix 8 2 DataType_U8 1 (Some 0%nat)
                      (Some (mkTypedArray u8 0%nat)))
                   0%nat (mkData 16 0%nat) 1 4 2 None h0
                   _ _ _ _) _).
  - reflexivity.
  - reflexivity.
  - reflexivity.
  - reflexivity.
  - simpl. lia.
Defined.

Lemma Matrix_new_alloc_eval (cols rows type : Z) (h : heap) :
  Matrix_new cols rows type None h =
  let m0 := mkMatrix (or0 cols) (or0 rows) (getDataType type)
              (getChannel type) None None in
  let h0 := with_matrices (fun t => t ++ [m0]) h in
  match Matrix_allocate (length (matrices h)) h0 with
  | (Ok _, h') => (Ok (length (matrices h)), h')
  | (Throw e, h') => (Throw e, h')
  end.
Proof.
  unfold Matrix_new, bind, ret. cbv zeta.
  destruct (Matrix_allocate _ _) as [[[]|e] h']; reflexivity.
Qed.

(** C6, as stated, fails: a matrix constructed over a caller-supplied
    buffer of 8 bytes with 100 x 100 one-byte elements. *)
Lemma Matrix_invariant_not_checked :
  exists d h0 this h1,
    Data_new (Num 8) None empty_heap = (Ok d, h0)
    /\ Matrix_new 100 100 (Z.lor DataType_U8 Channels_C1) (Some d) h0
       = (Ok this, h1)
    /\ ~ Matrix_invariant h1 this.
Proof.
  exists 0%nat. eexists. exists 0%nat. eexists.
  split; [vm_compute; reflexivity|].
  split; [vm_compute; reflexivity|].
  intros (m & d & D & es & Hm & Hb & HD & Hes & Hle).
  injection Hm as <-. injection Hb as <-. injection HD as <-.
  injection Hes as <-. simpl in Hle. lia.
Qed.

(** C6 (amended): after construction without a caller-supplied buffer and
    after every [allocate] or [resize] call that completes, when the
    element type is one of the enum and the bytes required by the
    dimensions, [cols * rows * channels * elementSize], are at most
    [2^31 - 8], the size recorded in the backing buffer is at least those
    bytes.  (Construction over a caller-supplied buffer checks nothing.) *)
Theorem Matrix_invariant_after (call : matrix_call) (h h' : heap)
    (this : loc) (m' : Matrix) (es : Z) :
  run_matrix_call call h = (Ok this, h') ->
  matrices h' !! this = Some m' ->
  DATA_TYPE_SIZE (Matrix_type m') = Some es ->
  Matrix_cols m' * Matrix_rows m' * Matrix_channels m' * es <= 2^31 - 8 ->
  Matrix_invariant h' this.
Proof.
  assert (Halloc : forall t m0 h0 h1,
    matrices h0 !! t = Some m0 ->
    Matrix_allocate t h0 = (Ok tt, h1) ->
    matrices h1 !! t = Some m' ->
    DATA_TYPE_SIZE (Matrix_type m') = Some es ->
    Matrix_cols m' * Matrix_rows m' * Matrix_channels m' * es <= 2^31 - 8 ->
    Matrix_invariant h1 t).
  { intros t m0 h0 h1 Hm0 Hrun Hm' Hes Hle.
    rewrite (Matrix_allocate_eval t m0 h0 Hm0) in Hrun. cbv zeta in Hrun.
    destruct (align8 (Matrix_bytes m0) <? 0); [discriminate|].
    injection Hrun as <-. simpl in Hm'.
    rewrite (lookup_insert_same _ _ _ _ Hm0) in Hm'. injection Hm' as <-.
    simpl in Hes, Hle.
    exists (Matrix_rebound m0 (length (datas h0))), (length (datas h0)),
      (mkData (align8 (Matrix_bytes m0)) (length (abufs h0))), es.
    simpl. split; [eapply lookup_insert_same; exact Hm0|].
    split; [reflexivity|]. split; [apply lookup_snoc|].
    split; [exact Hes|].
    unfold Matrix_bytes, getDataTypeSize. rewrite Hes. simpl.
    apply align8_ge. exact Hle. }
  destruct call as [cols rows type|t|t cols rows ch]; cbn [run_matrix_call].
  - (* new Matrix(cols, rows, type) *)
    rewrite Matrix_new_alloc_eval. cbv zeta.
    destruct (Matrix_allocate _ _) as [[[]|e] h1] eqn:Hrun; [|discriminate].
    intros [= <- <-] Hm' Hes Hle.
    refine (Halloc _ _ _ _ _ Hrun Hm' Hes Hle). simpl. apply lookup_snoc.
  - (* allocate() *)
    unfold bind, ret.
    destruct (Matrix_allocate t h) as [[[]|e] h1] eqn:Hrun; [|discriminate].
    intros [= <- <-] Hm' Hes Hle.
    destruct (matrices h !! t) as [m0|] eqn:Hm0.
    + exact (Halloc _ _ _ _ Hm0 Hrun Hm' Hes Hle).
    + unfold Matrix_allocate in Hrun.
      erewrite bind_throw in Hrun by (apply deref_none; exact Hm0).
      discriminate.
  - (* resize(cols, rows, ch) *)
    unfold bind, ret.
    destruct (Matrix_resize t cols rows ch h) as [[[]|e] h1] eqn:Hrun;
      [|discriminate].
    intros [= <- <-] Hm' Hes Hle.
    destruct (matrices h !! t) as [m0|] eqn:Hm0.
    2:{ unfold Matrix_resize in Hrun.
        erewrite bind_throw in Hrun by (apply deref_none; exact Hm0).
        discriminate. }
    destruct (Matrix_buffer m0) as [d|] eqn:Hbuf.
    2:{ unfold Matrix_resize in Hrun.
        rewrite (bind_ok _ _ _ _ _ (deref_ok matrices t m0 h Hm0)) in Hrun.
        cbv zeta in Hrun. rewrite Hbuf in Hrun.
        unfold bind, set_matrix, deref_opt, throw in Hrun. discriminate. }
    destruct (datas h !! d) as [D|] eqn:HD.
    2:{ unfold Matrix_resize in Hrun.
        rewrite (bind_ok _ _ _ _ _ (deref_ok matrices t m0 h Hm0)) in Hrun.
        cbv zeta in Hrun. rewrite Hbuf in Hrun.
        unfold bind at 1 in Hrun. unfold set_matrix at 1 in Hrun.
        unfold deref_opt in Hrun.
        erewrite bind_throw in Hrun by (apply deref_none; simpl; exact HD).
        discriminate. }
    rewrite (Matrix_resize_eval t m0 d D cols rows ch h Hm0 Hbuf HD) in Hrun.
    cbv zeta in Hrun.
    destruct (ngt _ _) eqn:Hgt.
    + refine (Halloc _ _ _ _ _ Hrun Hm' Hes Hle).
      simpl. eapply lookup_insert_same. exact Hm0.
    + injection Hrun as <-. simpl in Hm'.
      rewrite (lookup_insert_same _ _ _ _ Hm0) in Hm'. injection Hm' as <-.
      simpl in Hes, Hle.
      unfold Matrix_bytes, getDataTypeSize in Hgt. simpl in Hgt.
      rewrite Hes in Hgt. simpl in Hgt. apply Z.ltb_ge in Hgt.
      eexists _, d, D, es. simpl.
      split; [eapply lookup_insert_same; exact Hm0|].
      split; [reflexivity|]. split; [exact HD|]. split; [exact Hes|].
      exact Hgt.
Qed.

Lemma Matrix_invariant_after_witness :
  Matrix_invariant
    (snd (Matrix_new 8 2 (Z.lor DataType_U8 Channels_C1) None empty_heap))
    0%nat.
Proof.
  apply (Matrix_invariant_after
           (CallNew 8 2 (Z.lor DataType_U8 Channels_C1)) empty_heap _ 0%nat
           (mkMatrix 8 2 DataType_U8 1 (Some 0%nat)
              (Some (mkTypedArray u8 0%nat))) 1).
  - vm_compute. reflexivity.
  - reflexivity.
  - reflexivity.
  - simpl. lia.
Defined.

(** ** Decoding of type and format codes *)

Lemma layout_default (code : Z) :
  is_ColorConversion code = false -> layout code = layout RGBA2GRAY.
Proof.
  unfold is_ColorConversion, layout. intros H.
  apply orb_false_elim in H as [H H3].
  apply orb_false_elim in H as [H H2].
  apply orb_false_elim in H as [H0 H1].
  rewrite H1, H2, H3. reflexivity.
Qed.

Lemma unrecognized_type (ty : Z) :
  is_DataType ty = false ->
  DATA_TYPE_SIZE ty = None
  /\ forall c r ch b dt,
       Matrix_selectTypedView (mkMatrix c r ty ch b dt) = None.
Proof.
  unfold is_DataType, DATA_TYPE_SIZE, Matrix_selectTypedView. intros H.
  apply orb_false_elim in H as [H H5].
  apply orb_false_elim in H as [H H4].
  apply orb_false_elim in H as [H H3].
  apply orb_false_elim in H as [H1 H2].
  rewrite H1, H2, H3, H4, H5. split; [reflexivity|].
  intros c r ch [d|] dt; simpl; [|reflexivity].
  rewrite H1, H2, H3, H4, H5. reflexivity.
Qed.

(** C5, as stated, fails: the format code 7 and the type code 0x0301 are
    outside the enums and both are accepted without an error; the
    conversion then does what it does for RGBA. *)
Lemma unrecognized_codes_accepted :
  let src := [200; 100; 50; 255] in
  is_ColorConversion 7 = false
  /\ is_DataType (getDataType 0x0301) = false
  /\ exists dst h0 h1 this h2,
       Matrix_new 1 1 (Z.lor DataType_U8 Channels_C1) None empty_heap
       = (Ok dst, h0)
       /\ grayscale src 1 1 dst 7 h0 = (Ok tt, h1)
       /\ grayscale src 1 1 dst RGBA2GRAY h0 = (Ok tt, h1)
       /\ Matrix_new 2 2 0x0301 None empty_heap = (Ok this, h2).
Proof.
  intros src.
  split; [reflexivity|]. split; [reflexivity|].
  exists 0%nat. do 2 eexists. exists 0%nat. eexists.
  split; [vm_compute; reflexivity|].
  split; [vm_compute; reflexivity|].
  split; vm_compute; reflexivity.
Qed.

(** C5 (amended): no type or format code is rejected.  With a format code
    outside the enum, grayscale conversion is the conversion for RGBA.
    With a type outside the enum, the element size is [undefined], and
    the construction of a Matrix completes with no view selected
    ([data] is [undefined]); when it allocates, the buffer has size 0. *)
Theorem unrecognized_codes_not_rejected (code ty : Z) :
  is_ColorConversion code = false ->
  is_DataType (getDataType ty) = false ->
  (forall src w h dst,
      grayscale src w h dst code = grayscale src w h dst RGBA2GRAY)
  /\ DATA_TYPE_SIZE (getDataType ty) = None
  /\ forall cols rows existing hp,
     exists this hp' m,
       Matrix_new cols rows ty existing hp = (Ok this, hp')
       /\ matrices hp' !! this = Some m
       /\ Matrix_type m = getDataType ty
       /\ Matrix_data m = None
       /\ (existing = None ->
           exists d b,
             Matrix_buffer m = Some d
             /\ datas hp' !! d = Some (mkData 0 b)
             /\ abufs hp' !! b = Some []).
Proof.
  intros Hcode Hty.
  destruct (unrecognized_type _ Hty) as [Hsize Hview].
  split.
  { intros src w h dst. unfold grayscale, grayscale_with.
    rewrite (layout_default code Hcode). reflexivity. }
  split; [exact Hsize|].
  intros cols rows [d|] hp.
  - unfold Matrix_new. cbv zeta. simpl.
    unfold bind, set_matrix, ret. simpl.
    do 3 eexists. split; [reflexivity|]. simpl.
    split; [apply list_lookup_insert_eq; rewrite length_app; simpl; lia|].
    split; [reflexivity|]. split; [|discriminate].
    simpl. rewrite Hview. reflexivity.
  - rewrite Matrix_new_alloc_eval. cbv zeta.
    erewrite Matrix_allocate_eval by (simpl; apply lookup_snoc).
    cbv zeta. unfold Matrix_bytes, getDataTypeSize. simpl Matrix_type.
    rewrite Hsize. simpl nmul.
    change (align8 NaN) with 0. simpl.
    do 3 eexists. split; [reflexivity|]. simpl.
    split; [apply list_lookup_insert_eq; rewrite length_app; simpl; lia|].
    split; [reflexivity|].
    split; [apply (Hview _ _ _ (Some _) None)|].
    intros _. do 2 eexists. split; [reflexivity|].
    split; apply lookup_snoc.
Qed.

Lemma unrecognized_codes_not_rejected_witness :
  DATA_TYPE_SIZE (getDataType 0x0301) = None.
Proof.
  apply (unrecognized_codes_not_rejected 7 0x0301); reflexivity.
Defined.

(** ** Pool *)

Lemma PoolNode_resize_eval (this : loc) (n : PoolNode) (s : Z) (h : heap) :
  nodes h !! this = Some n ->
  PoolNode_resize this s h =
  let size := align8 (Num s) in
  if size <? 0 then (Throw RangeError, h)
  else (Ok tt,
        mkHeap (abufs h ++ [replicate (Z.to_nat size) 0])
               (datas h ++ [mkData size (length (abufs h))])
               (matrices h)
               (<[this := mkPoolNode (PoolNode_next n) (length (datas h)) size]>
                  (nodes h))
               (caches h)).
Proof.
  intros Hn. unfold PoolNode_resize. cbv zeta.
  unfold bind at 1. rewrite Data_new_alloc.
  destruct (align8 (Num s) <? 0); [reflexivity|].
  erewrite bind_ok by (apply deref_ok; simpl; apply lookup_snoc).
  erewrite bind_ok by (apply deref_ok; simpl; exact Hn).
  reflexivity.
Qed.

Lemma PoolNode_new_eval (s : Z) (h : heap) :
  PoolNode_new s h =
  let size := align8 (Num s) in
  if size <? 0 then (Throw RangeError, h)
  else (Ok (length (nodes h)),
        mkHeap (abufs h ++ [replicate (Z.to_nat size) 0])
               (datas h ++ [mkData size (length (abufs h))])
               (matrices h)
               (nodes h ++ [mkPoolNode None (length (datas h)) size])
               (caches h)).
Proof.
  unfold PoolNode_new. cbv zeta.
  unfold bind at 1. rewrite Data_new_alloc.
  destruct (align8 (Num s) <? 0); [reflexivity|].
  erewrite bind_ok by (apply deref_ok; simpl; apply lookup_snoc).
  reflexivity.
Qed.

Lemma Cache_get_buffer_empty (this : loc) (c : Cache) (s : Z) (h : heap) :
  caches h !! this = Some c ->
  Cache_head c = None ->
  Cache_get_buffer this s h = (Throw CacheExhausted, h).
Proof.
  intros Hc Hhead. unfold Cache_get_buffer.
  rewrite (bind_ok _ _ _ _ _ (deref_ok caches this c h Hc)).
  rewrite Hhead. reflexivity.
Qed.

Lemma Cache_get_buffer_eval (this : loc) (c : Cache) (node : loc)
    (N : PoolNode) (s : Z) (h : heap) :
  caches h !! this = Some c ->
  Cache_head c = Some node ->
  nodes h !! node = Some N ->
  Cache_get_buffer this s h =
  let h1 := with_caches
              (fun t => <[this := mkCache (PoolNode_next N) (Cache_tail c)]> t)
              h in
  if PoolNode_size N <? s then
    match PoolNode_resize node s h1 with
    | (Ok _, h2) => (Ok node, h2)
    | (Throw e, h2) => (Throw e, h2)
    end
  else (Ok node, h1).
Proof.
  intros Hc Hhead HN. unfold Cache_get_buffer.
  rewrite (bind_ok _ _ _ _ _ (deref_ok caches this c h Hc)).
  rewrite Hhead.
  rewrite (bind_ok _ _ _ _ _ (deref_ok nodes node N h HN)).
  unfold bind at 1. unfold set_cache at 1. cbv zeta.
  destruct (PoolNode_size N <? s).
  - unfold bind, ret. destruct (PoolNode_resize _ _ _) as [[[]|e] h2];
      reflexivity.
  - reflexivity.
Qed.

Lemma Cache_put_buffer_eval (this : loc) (c : Cache) (t node : loc)
    (T N : PoolNode) (h : heap) :
  caches h !! this = Some c ->
  Cache_tail c = Some t ->
  nodes h !! t = Some T ->
  nodes h !! node = Some N ->
  Cache_put_buffer this node h =
  (Ok tt,
   mkHeap (abufs h) (datas h) (matrices h)
     (<[node := mkPoolNode None (PoolNode_data N) (PoolNode_size N)]>
        (<[t := mkPoolNode (Some node) (PoolNode_data T) (PoolNode_size T)]>
           (nodes h)))
     (<[this := mkCache (Cache_head c) (Some node)]> (caches h))).
Proof.
  intros Hc Ht HT HN. unfold Cache_put_buffer.
  unfold bind at 1. unfold set_tail_next.
  rewrite (bind_ok _ _ _ _ _ (deref_ok caches this c h Hc)). rewrite Ht.
  rewrite (bind_ok _ _ _ _ _ (deref_ok nodes t T h HT)).
  unfold set_node at 1.
  unfold bind at 1. unfold set_tail.
  erewrite bind_ok by (apply deref_ok; cbn [caches with_nodes]; exact Hc).
  unfold set_cache at 1.
  destruct (decide (t = node)) as [->|Hne].
  - rewrite HT in HN. injection HN as <-.
    erewrite bind_ok
      by (apply deref_ok; cbn [nodes with_nodes with_caches];
          eapply lookup_insert_same; exact HT).
    reflexivity.
  - erewrite bind_ok
      by (apply deref_ok; cbn [nodes with_nodes with_caches];
          rewrite list_lookup_insert_ne by exact Hne; exact HN).
    reflexivity.
Qed.

(** [put_buffer] never writes [head]. *)
Lemma Cache_put_buffer_head (this node : loc) (c : Cache) (h : heap) :
  caches h !! this = Some c ->
  exists c',
    caches (exec (Cache_put_buffer this node) h) !! this = Some c'
    /\ Cache_head c' = Cache_head c.
Proof.
  intros Hc. unfold exec, Cache_put_buffer.
  unfold bind at 1. unfold set_tail_next.
  rewrite (bind_ok _ _ _ _ _ (deref_ok caches this c h Hc)).
  destruct (Cache_tail c) as [t|]; [|exists c; split; [exact Hc|reflexivity]].
  unfold bind at 1. unfold deref at 1.
  destruct (nodes h !! t) as [T|]; [|exists c; split; [exact Hc|reflexivity]].
  unfold set_node at 1.
  unfold bind at 1. unfold set_tail.
  erewrite bind_ok by (apply deref_ok; cbn [caches with_nodes]; exact Hc).
  unfold set_cache at 1.
  exists (mkCache (Cache_head c) (Some node)). split; [|reflexivity].
  unfold bind, deref, set_node.
  destruct (nodes _ !! node); cbn [snd caches with_nodes with_caches];
    eapply lookup_insert_same; exact Hc.
Qed.

(** Once [head] is null no sequence of returns makes a node obtainable
    again: every later [get_buffer] fails. *)
Lemma Cache_exhausted_for_good (this : loc) (returned : list loc) :
  forall (c : Cache) (h : heap),
    caches h !! this = Some c ->
    Cache_head c = None ->
    forall s,
      fst (Cache_get_buffer this s
             (foldl (fun h0 node => exec (Cache_put_buffer this node) h0)
                h returned))
      = Throw CacheExhausted.
Proof.
  induction returned as [|node returned IH]; intros c h Hc Hhead s.
  - simpl. rewrite (Cache_get_buffer_empty this c s h Hc Hhead). reflexivity.
  - simpl.
    destruct (Cache_put_buffer_head this node c h Hc) as (c' & Hc' & Hh).
    apply (IH c'); [exact Hc' | congruence].
Qed.

(** With a second free node behind the head, the round trip leaves a node
    to lend. *)
Lemma Cache_round_trip_two_free (this : loc) (c : Cache)
    (n1 n2 t : loc) (N1 N2 T : PoolNode) (s s' : Z) (h : heap) :
  caches h !! this = Some c ->
  Cache_head c = Some n1 -> nodes h !! n1 = Some N1 ->
  PoolNode_next N1 = Some n2 -> nodes h !! n2 = Some N2 ->
  Cache_tail c = Some t -> nodes h !! t = Some T ->
  s <= PoolNode_size N1 -> s' <= PoolNode_size N2 ->
  exists h1 h2,
    Cache_get_buffer this s h = (Ok n1, h1)
    /\ Cache_put_buffer this n1 h1 = (Ok tt, h2)
    /\ exists h3, Cache_get_buffer this s' h2 = (Ok n2, h3).
Proof.
  intros Hc Hhead HN1 Hnext HN2 Htail HT Hs Hs'.
  rewrite (Cache_get_buffer_eval this c n1 N1 s h Hc Hhead HN1). cbv zeta.
  assert (Hcmp : (PoolNode_size N1 <? s) = false) by (apply Z.ltb_ge; lia).
  rewrite Hcmp, Hnext.
  do 2 eexists. split; [reflexivity|].
  erewrite (Cache_put_buffer_eval this _ t n1 T N1);
    [|cbn [caches with_caches]; eapply lookup_insert_same; exact Hc
     |exact Htail|exact HT|exact HN1].
  split; [reflexivity|].
  cbn [Cache_head abufs datas matrices nodes caches with_caches].
  set (nodes2 := <[n1 := _]> (<[t := _]> (nodes h))).
  assert (HN2' : exists N2', nodes2 !! n2 = Some N2'
                             /\ PoolNode_size N2' = PoolNode_size N2).
  { unfold nodes2.
    destruct (decide (n1 = n2)) as [<-|Hne1].
    - eexists. split.
      + apply list_lookup_insert_eq. rewrite length_insert.
        eapply lookup_lt_Some. exact HN1.
      + rewrite HN1 in HN2. injection HN2 as <-. reflexivity.
    - rewrite list_lookup_insert_ne by exact Hne1.
      destruct (decide (t = n2)) as [<-|Hne2].
      + eexists. split.
        * eapply lookup_insert_same. exact HT.
        * rewrite HT in HN2. injection HN2 as <-. reflexivity.
      + rewrite list_lookup_insert_ne by exact Hne2.
        exists N2. split; [exact HN2|reflexivity]. }
  destruct HN2' as (N2' & HN2' & Hsize2).
  erewrite (Cache_get_buffer_eval this _ n2 N2' s');
    [|cbn [caches]; apply list_lookup_insert_eq; rewrite length_insert;
      eapply lookup_lt_Some; exact Hc
     |reflexivity|cbn [nodes]; exact HN2'].
  cbv zeta.
  assert (Hcmp' : (PoolNode_size N2' <? s') = false)
    by (apply Z.ltb_ge; lia).
  rewrite Hcmp'. eexists. reflexivity.
Qed.

(** C4, as stated, fails on requests beyond 32 bits: with a free node at
    the head, a request of [2^31] bytes fails (RangeError) after the head
    has been advanced, and a request of [2^32 + 8] bytes returns a node
    of 8 bytes, no larger than before. *)
Lemma Cache_get_buffer_wraps :
  exists pool h0 h1,
    Cache_new empty_heap = (Ok pool, h0)
    /\ Cache_allocate pool 1 8 h0 = (Ok tt, h1)
    /\ caches h1 !! pool = Some (mkCache (Some 0%nat) (Some 1%nat))
    /\ nodes h1 !! 0%nat = Some (mkPoolNode (Some 1%nat) 0%nat 8)
    /\ (exists h2,
          Cache_get_buffer pool (2^31) h1 = (Throw RangeError, h2)
          /\ caches h2 !! pool = Some (mkCache (Some 1%nat) (Some 1%nat)))
    /\ (exists h2 N',
          Cache_get_buffer pool (2^32 + 8) h1 = (Ok 0%nat, h2)
          /\ nodes h2 !! 0%nat = Some N'
          /\ PoolNode_data N' <> 0%nat
          /\ PoolNode_size N' = 8
          /\ ~ (2^32 + 8 <= PoolNode_size N')
          /\ ~ (8 < PoolNode_size N')).
Proof.
  exists 0%nat. do 2 eexists.
  split; [vm_compute; reflexivity|].
  split; [vm_compute; reflexivity|].
  split; [reflexivity|]. split; [reflexivity|].
  split.
  - eexists. split; [vm_compute; reflexivity|]. reflexivity.
  - do 2 eexists. split; [vm_compute; reflexivity|].
    split; [reflexivity|]. simpl. split; [discriminate|].
    split; [reflexivity|]. split; lia.
Qed.

(** C4 (amended): [get_buffer(sizeInBytes)] fails with the exhaustion
    error when [head] is null, leaving the store as it was; when [head]
    is a node and [sizeInBytes <= 2^31 - 8], it succeeds: it returns the
    head node, advances [head] to that node's [next] (the node keeps its
    [next] and [tail] is not touched), and the node returned has a buffer
    of capacity at least [sizeInBytes]; the buffer is replaced, by a new
    and strictly larger one, only when [sizeInBytes] exceeds the node's
    size. *)
Theorem Cache_get_buffer_spec (this : loc) (c : Cache) (s : Z) (h : heap) :
  caches h !! this = Some c ->
  (Cache_head c = None ->
   Cache_get_buffer this s h = (Throw CacheExhausted, h))
  /\ (forall node,
        Cache_head c = Some node -> node_honest h node -> s <= 2^31 - 8 ->
        exists N N' h',
          nodes h !! node = Some N
          /\ Cache_get_buffer this s h = (Ok node, h')
          /\ caches h' !! this
             = Some (mkCache (PoolNode_next N) (Cache_tail c))
          /\ nodes h' = <[node := N']> (nodes h)
          /\ PoolNode_next N' = PoolNode_next N
          /\ node_honest h' node
          /\ s <= PoolNode_size N'
          /\ (s <= PoolNode_size N ->
              N' = N /\ datas h' = datas h /\ abufs h' = abufs h)
          /\ (PoolNode_size N < s ->
              PoolNode_size N < PoolNode_size N'
              /\ datas h !! PoolNode_data N' = None)).
Proof.
  intros Hc. split.
  { intros Hhead. exact (Cache_get_buffer_empty this c s h Hc Hhead). }
  intros node Hhead (N & D & buf & HN & HD & Hsize & Hbuf & Hlen) Hs.
  rewrite (Cache_get_buffer_eval this c node N s h Hc Hhead HN). cbv zeta.
  destruct (PoolNode_size N <? s) eqn:Hcmp.
  - apply Z.ltb_lt in Hcmp.
    erewrite PoolNode_resize_eval by (simpl; exact HN). cbv zeta.
    pose proof (align8_ge s Hs) as Hge.
    assert (Hnn : (align8 (Num s) <? 0) = false) by (apply Z.ltb_ge; lia).
    rewrite Hnn. simpl.
    exists N. eexists. eexists. split; [exact HN|].
    split; [reflexivity|]. simpl.
    split; [eapply lookup_insert_same; exact Hc|].
    split; [reflexivity|]. split; [reflexivity|].
    split.
    { eexists _, _, _. simpl.
      split; [eapply lookup_insert_same; exact HN|]. simpl.
      split; [apply lookup_snoc|]. split; [reflexivity|]. simpl.
      split; [apply lookup_snoc|].
      rewrite length_replicate. lia. }
    split; [exact Hge|].
    split; [intros Hle; exfalso; lia|]. intros _. split; [simpl; lia|].
    simpl. apply lookup_ge_None. lia.
  - apply Z.ltb_ge in Hcmp.
    exists N, N. eexists. split; [exact HN|].
    split; [reflexivity|]. simpl.
    split; [eapply lookup_insert_same; exact Hc|].
    split; [symmetry; apply list_insert_id; exact HN|].
    split; [reflexivity|].
    split; [exists N, D, buf; auto|].
    split; [exact Hcmp|].
    split; [auto|]. lia.
Qed.

Lemma Cache_get_buffer_spec_witness :
  Cache_get_buffer 0%nat 8 (snd (Cache_new empty_heap))
  = (Throw CacheExhausted, snd (Cache_new empty_heap)).
Proof.
  apply (Cache_get_buffer_spec 0%nat (mkCache None None) 8
           (snd (Cache_new empty_heap)) eq_refl).
  reflexivity.
Defined.

(** C2: the round trip on a pool with a single free node.  After
    [allocate(0, 8)] the pool holds one node; [get_buffer] lends it,
    [put_buffer] takes it back without an error, and the next
    [get_buffer] fails: [put_buffer] links the node after [tail] and never
    restores [head], which [get_buffer] left null. *)
Theorem Cache_round_trip_exhausts :
  exists pool h0 h1 node h2 h3,
    Cache_new empty_heap = (Ok pool, h0)
    /\ Cache_allocate pool 0 8 h0 = (Ok tt, h1)
    /\ caches h1 !! pool = Some (mkCache (Some node) (Some node))
    /\ Cache_get_buffer pool 8 h1 = (Ok node, h2)
    /\ Cache_put_buffer pool node h2 = (Ok tt, h3)
    /\ caches h3 !! pool = Some (mkCache None (Some node))
    /\ Cache_get_buffer pool 8 h3 = (Throw CacheExhausted, h3).
Proof.
  exists 0%nat. do 2 eexists. exists 0%nat. do 2 eexists.
  split; [vm_compute; reflexivity|].
  split; [vm_compute; reflexivity|].
  split; [reflexivity|].
  split; [vm_compute; reflexivity|].
  split; [vm_compute; reflexivity|].
  split; [reflexivity|].
  vm_compute. reflexivity.
Qed.

(** ** Equations between computations *)

#[export] Instance meq_equivalence {St A} : Equivalence (@meq St A).
Proof.
  split.
  - intros m s. reflexivity.
  - intros m1 m2 H s. symmetry. apply H.
  - intros m1 m2 m3 H12 H23 s. rewrite H12. apply H23.
Qed.

#[export] Instance bind_proper {St A B} :
  Proper (meq ==> pointwise_relation A meq ==> meq) (@bind St A B).
Proof.
  intros m1 m2 Hm k1 k2 Hk s. unfold bind. rewrite (Hm s).
  destruct (m2 s) as [[a|e] s']; [apply Hk | reflexivity].
Qed.

Lemma bind_ret_l {St A B} (a : A) (k : A -> MS St B) : bind (ret a) k =~= k a.
Proof. intros s. reflexivity. Qed.


Lemma bind_assoc {St A B C} (m : MS St A) (k1 : A -> MS St B)
    (k2 : B -> MS St C) :
  bind (bind m k1) k2 =~= bind m (fun a => bind (k1 a) k2).
Proof.
  intros s. unfold bind. destruct (m s) as [[a|e] s']; reflexivity.
Qed.

Lemma for_count_proper {St S} (body1 body2 : Z -> S -> MS St S) :
  (forall i s, body1 i s =~= body2 i s) ->
  forall n i s, for_count n i body1 s =~= for_count n i body2 s.
Proof.
  intros Hb n. induction n as [|n IH]; intros i s; simpl.
  - reflexivity.
  - rewrite (Hb i s). apply bind_proper; [reflexivity|].
    intros s'. apply IH.
Qed.

(** ** Pyramid *)

Section PyramidBuildProofs.
Context {W : Type}.
Variable copyTo : loc -> option loc -> MS W unit.
Variable pyrdown : option loc -> option loc -> MS W unit.
Variable this : Pyramid.

Let body (i : Z) (ab : option loc * option loc)
    : MS W (option loc * option loc) :=
  let a := snd ab in
  let b := layer this i in
  pyrdown a b;;; ret (a, b).

(** The loop of [build]: entering iteration [i], [b] is
    [layers[i - 1]]. *)
Lemma build_loop_calls (n : nat) :
  forall (i : Z) (a : option loc),
    (for_count n i body (a, layer this (i - 1));;; ret tt)
    =~= run_calls copyTo pyrdown
          (map (fun i => Pyrdown (layer this (i - 1)) (layer this i))
             (seqZ i (Z.of_nat n))).
Proof.
  induction n as [|n IH]; intros i a.
  - intros w. reflexivity.
  - rewrite seqZ_cons by lia.
    replace (Z.pred (Z.of_nat (S n))) with (Z.of_nat n) by lia.
    cbn [map run_calls run_call for_count].
    unfold body at 1. cbn [snd].
    rewrite !bind_assoc.
    apply bind_proper; [reflexivity|]. intros [].
    rewrite bind_ret_l.
    replace (layer this i) with (layer this (Z.succ i - 1))
      by (f_equal; lia).
    apply IH.
Qed.

Lemma Pyramid_build_eq (input : loc) (skipFirst : bool) :
  Pyramid_build copyTo pyrdown this input skipFirst
  =~= run_calls copyTo pyrdown (build_calls this input skipFirst).
Proof.
  unfold Pyramid_build, build_calls, for_loop.
  assert (Htail :
    (pyrdown (Some input) (layer this 1);;;
     for_count (Z.to_nat (Pyramid_levels this - 2)) 2 body
       (Some input, layer this 1);;; ret tt)
    =~= run_calls copyTo pyrdown
          (Pyrdown (Some input) (layer this 1)
           :: map (fun i => Pyrdown (layer this (i - 1)) (layer this i))
                (seqZ 2 (Pyramid_levels this - 2)))).
  { cbn [run_calls run_call].
    apply bind_proper; [reflexivity|]. intros [].
    rewrite (build_loop_calls _ 2 (Some input)).
    destruct (Z_le_gt_dec 0 (Pyramid_levels this - 2)).
    - rewrite Z2Nat.id by lia. reflexivity.
    - replace (Z.to_nat (Pyramid_levels this - 2)) with 0%nat by lia.
      unfold seqZ.
      replace (Z.to_nat (Pyramid_levels this - 2)) with 0%nat by lia.
      reflexivity. }
  destruct skipFirst; cbn [negb app].
  - rewrite bind_ret_l. exact Htail.
  - cbn [run_calls run_call].
    apply bind_proper; [reflexivity|]. intros []. exact Htail.
Qed.
End PyramidBuildProofs.

Lemma run_calls_log (cs : list call) (t : list call) :
  run_calls (fun s d => log_call (CopyTo s d))
    (fun s d => log_call (Pyrdown s d)) cs t
  = (Ok tt, t ++ cs).
Proof.
  revert t. induction cs as [|c cs IH]; intros t; simpl.
  - rewrite app_nil_r. reflexivity.
  - unfold bind. destruct c; simpl; rewrite IH, <- app_assoc; reflexivity.
Qed.

(** C8: [build(input, pyrdown, skipFirst)] makes exactly the calls of
    [build_calls], in that order: [input.copyTo(layers[0])] if and only
    if [skipFirst] is false, then [pyrdown(input, layers[1])], then
    [pyrdown(layers[i-1], layers[i])] for [i] from 2 to [levels - 1].
    This holds whatever [copyTo] and [pyrdown] do to the store (a call
    that throws ends both sides), and the calls recorded when each call
    is logged are that list. *)
Theorem Pyramid_build_calls (this : Pyramid) (input : loc)
    (skipFirst : bool) :
  (forall (W : Type) (copyTo : loc -> option loc -> MS W unit)
          (pyrdown : option loc -> option loc -> MS W unit) (w : W),
      Pyramid_build copyTo pyrdown this input skipFirst w
      = run_calls copyTo pyrdown (build_calls this input skipFirst) w)
  /\ Pyramid_build (fun s d => log_call (CopyTo s d))
       (fun s d => log_call (Pyrdown s d)) this input skipFirst []
     = (Ok tt, build_calls this input skipFirst)
  /\ (In (CopyTo input (layer this 0)) (build_calls this input skipFirst)
      <-> skipFirst = false).
Proof.
  split; [|split].
  - intros W copyTo pyrdown w. apply Pyramid_build_eq.
  - rewrite Pyramid_build_eq. apply run_calls_log.
  - unfold build_calls. destruct skipFirst; simpl.
    + split; [|discriminate].
      intros [H|H]; [discriminate|].
      apply in_map_iff in H as (i & H & _). discriminate.
    + split; [reflexivity|]. intros _. left. reflexivity.
Qed.

(** ** Grayscale conversion: the unrolled loops *)

Section GrayscaleProofs.
Context {St : Type}.
Variable store : Z -> Z -> MS St unit.
Variable src : list Z.
Variables (w h cn idxR idxG idxB : Z).

Let pixel := reference_pixel store src cn idxR idxG idxB.
Let run := pixels store src cn idxR idxG idxB.
Let ubody := unrolled_body store src cn idxR idxG idxB.
Let rbody := remainder_body store src cn idxR idxG idxB.

Lemma pixels_S (n : nat) (p : Z) : run (S n) p =~= (pixel p;;; run n (p + 1)).
Proof.
  unfold run, pixels. cbn [for_count].
  apply bind_proper; [reflexivity|]. intros []. reflexivity.
Qed.

Lemma pixels_app (a b : nat) :
  forall p, run (a + b) p =~= (run a p;;; run b (p + Z.of_nat a)).
Proof.
  induction a as [|a IH]; intros p.
  - cbn [Nat.add]. unfold run at 2, pixels. cbn [for_count].
    rewrite bind_ret_l. change (Z.of_nat 0) with 0.
    rewrite Z.add_0_r. reflexivity.
  - cbn [Nat.add]. rewrite !pixels_S, bind_assoc.
    apply bind_proper; [reflexivity|]. intros [].
    rewrite IH. replace (p + 1 + Z.of_nat a) with (p + Z.of_nat (S a)) by lia.
    reflexivity.
Qed.

(** One turn of the unrolled loop is four pixels. *)
Lemma unrolled_body_pixels (j : Z) :
  ubody (j * cn, j) =~= (run 4 j;;; ret ((j + 4) * cn, j + 4)).
Proof.
  unfold ubody, unrolled_body. cbn [fst snd].
  rewrite !pixels_S. unfold run, pixels. cbn [for_count].
  unfold pixel, reference_pixel.
  replace (j * cn + cn) with ((j + 1) * cn) by lia.
  replace (j * cn + cn * 2) with ((j + 1 + 1) * cn) by lia.
  replace (j * cn + cn * 3) with ((j + 1 + 1 + 1) * cn) by lia.
  replace (j * cn + cn * 4) with ((j + 4) * cn) by lia.
  replace (j + 2) with (j + 1 + 1) by lia.
  replace (j + 3) with (j + 1 + 1 + 1) by lia.
  repeat (rewrite ?bind_assoc; apply bind_proper; [reflexivity|]; intros []).
  rewrite bind_ret_l. reflexivity.
Qed.

(** The unrolled loop with [r] pixels left in the row: [r / 4] turns. *)
Lemma unrolled_loop (fuel : nat) :
  forall j r limit,
    limit = j + r - 4 ->
    r <= Z.of_nat fuel + 3 ->
    let q := Z.to_nat (r / 4) in
    while_loop fuel (fun ij => snd ij <=? limit) ubody (j * cn, j)
    =~= (run (q * 4) j;;;
         ret ((j + Z.of_nat (q * 4)) * cn, j + Z.of_nat (q * 4))).
Proof.
  induction fuel as [|fuel IH]; intros j r limit Hlimit Hr q.
  - assert (Hq : q = 0%nat).
    { unfold q. assert (r / 4 < 1); [|lia].
      apply Z.div_lt_upper_bound; lia. }
    rewrite Hq. cbn [while_loop snd Nat.mul].
    assert (Hc : (j <=? limit) = false) by (apply Z.leb_gt; lia).
    rewrite Hc. unfold run, pixels. cbn [for_count].
    rewrite bind_ret_l. change (Z.of_nat 0) with 0. rewrite Z.add_0_r.
    reflexivity.
  - cbn [while_loop snd].
    destruct (j <=? limit) eqn:Hc.
    + apply Z.leb_le in Hc.
      assert (Hq : q = S (Z.to_nat ((r - 4) / 4))).
      { unfold q. replace r with ((r - 4) + 1 * 4) at 1 by lia.
        rewrite Z.div_add by lia.
        assert (0 <= (r - 4) / 4) by (apply Z.div_pos; lia). lia. }
      rewrite Hq. cbn [Nat.mul].
      rewrite unrolled_body_pixels, bind_assoc.
      rewrite (pixels_app 4), bind_assoc.
      apply bind_proper; [reflexivity|]. intros [].
      rewrite bind_ret_l.
      rewrite (IH (j + 4) (r - 4) limit) by lia. cbv zeta.
      change (Z.of_nat 4) with 4.
      replace (j + 4 + Z.of_nat (Z.to_nat ((r - 4) / 4) * 4))
        with (j + Z.of_nat (4 + Z.to_nat ((r - 4) / 4) * 4)) by lia.
      reflexivity.
    + apply Z.leb_gt in Hc.
      assert (Hq : q = 0%nat).
      { unfold q. assert (r / 4 < 1); [|lia].
        apply Z.div_lt_upper_bound; lia. }
      rewrite Hq. cbn [Nat.mul]. unfold run, pixels. cbn [for_count].
      rewrite bind_ret_l. change (Z.of_nat 0) with 0. rewrite Z.add_0_r.
      reflexivity.
Qed.

(** The remainder loop with [r] pixels left: [r] turns. *)
Lemma remainder_loop (fuel : nat) :
  forall j r bound,
    bound = j + r ->
    r <= Z.of_nat fuel ->
    (while_loop fuel (fun ij => snd ij <? bound) rbody (j * cn, j);;; ret tt)
    =~= run (Z.to_nat r) j.
Proof.
  induction fuel as [|fuel IH]; intros j r bound Hbound Hr.
  - cbn [while_loop snd].
    assert (Hc : (j <? bound) = false) by (apply Z.ltb_ge; lia).
    rewrite Hc, bind_ret_l.
    replace (Z.to_nat r) with 0%nat by lia. reflexivity.
  - cbn [while_loop snd].
    destruct (j <? bound) eqn:Hc.
    + apply Z.ltb_lt in Hc.
      replace (Z.to_nat r) with (S (Z.to_nat (r - 1))) by lia.
      rewrite pixels_S.
      unfold rbody at 1, remainder_body. cbn [fst snd].
      rewrite !bind_assoc.
      apply bind_proper; [reflexivity|]. intros [].
      rewrite bind_ret_l.
      replace (j * cn + cn) with ((j + 1) * cn) by lia.
      apply IH; lia.
    + apply Z.ltb_ge in Hc. rewrite bind_ret_l.
      replace (Z.to_nat r) with 0%nat by lia. reflexivity.
Qed.

(** A row of the routine is the [w] pixels of the row, in order. *)
Lemma grayscale_row_pixels (y : Z) :
  grayscale_row store src w cn idxR idxG idxB y
  =~= run (Z.to_nat w) (y * w).
Proof.
  unfold grayscale_row. cbv zeta.
  fold ubody. fold rbody.
  rewrite (unrolled_loop (Z.to_nat w) (y * w) w (y * w + (w - 4)))
    by lia.
  cbv zeta. rewrite bind_assoc.
  set (q := Z.to_nat (w / 4)).
  assert (Hsplit : Z.to_nat w = (q * 4 + Z.to_nat (w - Z.of_nat (q * 4)))%nat).
  { unfold q. destruct (Z_le_gt_dec 0 w) as [Hw|Hw].
    - pose proof (Z.div_mod w 4 ltac:(lia)).
      pose proof (Z.mod_pos_bound w 4 ltac:(lia)).
      assert (0 <= w / 4) by (apply Z.div_pos; lia). lia.
    - assert (w / 4 <= 0); [|lia].
      apply Z.div_le_upper_bound; lia. }
  transitivity (run (q * 4 + Z.to_nat (w - Z.of_nat (q * 4))) (y * w));
    [|rewrite <- Hsplit; reflexivity].
  rewrite pixels_app.
  apply bind_proper; [reflexivity|]. intros [].
  rewrite bind_ret_l.
  apply remainder_loop; lia.
Qed.

(** A row of the reference is the same [w] pixels. *)
Lemma reference_row_pixels (y : Z) (n : nat) :
  forall x,
    for_count n x (fun x _ => pixel (y * w + x)) tt =~= run n (y * w + x).
Proof.
  induction n as [|n IH]; intros x.
  - reflexivity.
  - rewrite pixels_S. cbn [for_count].
    apply bind_proper; [reflexivity|]. intros [].
    rewrite IH. replace (y * w + (x + 1)) with (y * w + x + 1) by lia.
    reflexivity.
Qed.

Lemma grayscale_rows_reference :
  grayscale_rows store src w h cn idxR idxG idxB
  =~= reference_rows store src w h cn idxR idxG idxB.
Proof.
  unfold grayscale_rows, reference_rows, for_loop.
  apply for_count_proper. intros y [].
  rewrite grayscale_row_pixels.
  fold pixel. rewrite (reference_row_pixels y).
  rewrite Z.sub_0_r, Z.add_0_r. reflexivity.
Qed.

(** The rows, one after the other, are the pixels [0 .. h*w - 1]. *)
Lemma rows_pixels (n : nat) :
  forall y,
    for_count n y (fun y _ => run (Z.to_nat w) (y * w)) tt
    =~= run (n * Z.to_nat w) (y * w).
Proof.
  induction n as [|n IH]; intros y.
  - reflexivity.
  - cbn [for_count Nat.mul]. rewrite pixels_app.
    apply bind_proper; [reflexivity|]. intros [].
    rewrite IH.
    destruct (Z_le_gt_dec 0 w) as [Hw|Hw].
    + replace ((y + 1) * w) with (y * w + Z.of_nat (Z.to_nat w)) by lia.
      reflexivity.
    + replace (Z.to_nat w) with 0%nat by lia.
      rewrite Nat.mul_0_r. reflexivity.
Qed.

Lemma reference_rows_pixels :
  reference_rows store src w h cn idxR idxG idxB
  =~= run (Z.to_nat h * Z.to_nat w) 0.
Proof.
  unfold reference_rows, for_loop. rewrite !Z.sub_0_r.
  etransitivity; [|apply (rows_pixels (Z.to_nat h) 0)].
  apply for_count_proper. intros y [].
  fold pixel. rewrite (reference_row_pixels y), Z.add_0_r. reflexivity.
Qed.
End GrayscaleProofs.

Lemma pixels_log (src : list Z) (cn idxR idxG idxB : Z) (n : nat) :
  forall p t,
    pixels log_store src cn idxR idxG idxB n p t
    = (Ok tt,
       t ++ map (fun q => (q, float_or0 (luminance src idxR idxG idxB (q * cn))))
              (seqZ p (Z.of_nat n))).
Proof.
  induction n as [|n IH]; intros p t.
  - simpl. rewrite app_nil_r. reflexivity.
  - rewrite seqZ_cons by lia.
    replace (Z.pred (Z.of_nat (S n))) with (Z.of_nat n) by lia.
    unfold pixels in *. cbn [for_count map].
    unfold bind. unfold reference_pixel at 1, log_store at 1.
    rewrite IH, <- app_assoc. reflexivity.
Qed.

(** C7: for every width, height, format code and source, the routine
    with its unrolled and remainder loops leaves the same store (the same
    destination contents, and the same outcome) as the routine with the
    reference loop that handles one pixel at a time; this holds for the
    loops over any destination.  The writes are made in the order of the
    pixels: the sequence of writes is, for [p = 0, 1, ..., h*w - 1],
    pixel [p] of the source (read at [p * cn]) written at index [p]. *)
Theorem grayscale_unrolled_is_reference (src : list Z) (w h : Z) :
  (forall (dst : loc) (code : Z) (hp : heap),
      grayscale src w h dst code hp = grayscale_reference src w h dst code hp)
  /\ (forall (St : Type) (store : Z -> Z -> MS St unit)
             (cn idxR idxG idxB : Z) (s : St),
         grayscale_rows store src w h cn idxR idxG idxB s
         = reference_rows store src w h cn idxR idxG idxB s)
  /\ (forall cn idxR idxG idxB : Z,
         grayscale_rows log_store src w h cn idxR idxG idxB []
         = (Ok tt,
            map (fun p =>
                   (p, float_or0 (luminance src idxR idxG idxB (p * cn))))
              (seqZ 0 (Z.of_nat (Z.to_nat h * Z.to_nat w))))).
Proof.
  split; [|split].
  - intros dst code hp. unfold grayscale, grayscale_reference, grayscale_with.
    destruct (layout code) as [[[cn idxR] idxG] idxB].
    apply bind_proper; [reflexivity|]. intros [].
    apply bind_proper; [reflexivity|]. intros m.
    apply grayscale_rows_reference.
  - intros St store cn idxR idxG idxB s. apply grayscale_rows_reference.
  - intros cn idxR idxG idxB.
    rewrite (grayscale_rows_reference log_store src w h cn idxR idxG idxB []).
    rewrite (reference_rows_pixels log_store src w h cn idxR idxG idxB []).
    apply (pixels_log src cn idxR idxG idxB _ 0 []).
Qed.

(** ** Grayscale conversion into a matrix of bytes *)

Lemma with_abufs_same (b : loc) (buf : list Z) (hp : heap) :
  abufs hp !! b = Some buf ->
  with_abufs (fun t => <[b := buf]> t) hp = hp.
Proof.
  intros Hb. destruct hp as [ab da ma no ca]. unfold with_abufs. simpl in *.
  rewrite list_insert_id by exact Hb. reflexivity.
Qed.

(** A store through the byte view is the store on the bytes. *)
Lemma TypedArray_set_u8 (d : loc) (D : Data) (buf : list Z) (j v : Z)
    (hp : heap) :
  datas hp !! d = Some D ->
  abufs hp !! Data_buffer D = Some buf ->
  TypedArray_set (Some (mkTypedArray u8 d)) j v hp
  = (Ok tt,
     with_abufs (fun t => <[Data_buffer D := snd (u8_store j v buf)]> t) hp).
Proof.
  intros HD Hb. unfold TypedArray_set. cbn [ta_owner ta_kind].
  rewrite (bind_ok _ _ _ _ _ (deref_ok datas d D hp HD)).
  rewrite (bind_ok _ _ _ _ _ (deref_ok abufs _ buf hp Hb)).
  cbn [BYTES_PER_ELEMENT encode]. rewrite Z.div_1_r, Z.mul_1_r.
  unfold u8_store. cbn [snd].
  destruct (0 <=? j) eqn:H0; cbn [andb].
  - apply Z.leb_le in H0.
    assert (Hneg : (j <? 0) = false) by (apply Z.ltb_ge; lia).
    rewrite Hneg.
    destruct (j <? Z.of_nat (length buf)) eqn:H1.
    + apply Z.ltb_lt in H1. unfold splice.
      rewrite (insert_take_drop buf (Z.to_nat j)) by lia.
      cbn [length app]. rewrite Nat.add_1_r. reflexivity.
    + apply Z.ltb_ge in H1. unfold ret.
      rewrite list_insert_ge by lia.
      rewrite (with_abufs_same _ _ _ Hb). reflexivity.
  - apply Z.leb_gt in H0.
    assert (Hneg : (j <? 0) = true) by (apply Z.ltb_lt; lia).
    rewrite Hneg. unfold ret.
    rewrite (with_abufs_same _ _ _ Hb). reflexivity.
Qed.

(** A run of pixels written through the byte view is the run on the
    bytes. *)
Lemma pixels_u8 (src : list Z) (cn idxR idxG idxB : Z) (d : loc) (D : Data)
    (n : nat) :
  forall (p : Z) (buf : list Z) (hp : heap),
    datas hp !! d = Some D ->
    abufs hp !! Data_buffer D = Some buf ->
    pixels (TypedArray_set (Some (mkTypedArray u8 d))) src cn idxR idxG idxB
      n p hp
    = (Ok tt,
       with_abufs
         (fun t => <[Data_buffer D :=
                      snd (pixels u8_store src cn idxR idxG idxB n p buf)]> t)
         hp).
Proof.
  induction n as [|n IH]; intros p buf hp HD Hb.
  - unfold pixels. cbn [for_count]. unfold ret. cbn [snd].
    rewrite (with_abufs_same _ _ _ Hb). reflexivity.
  - unfold pixels in *. cbn [for_count].
    unfold bind at 1. unfold reference_pixel at 1.
    rewrite (TypedArray_set_u8 d D buf _ _ hp HD Hb).
    erewrite IH.
    + unfold with_abufs. cbn [abufs datas matrices nodes caches].
      rewrite list_insert_insert_eq. reflexivity.
    + exact HD.
    + cbn [abufs with_abufs]. apply list_lookup_insert_eq.
      eapply lookup_lt_Some. exact Hb.
Qed.

Lemma solid_bytes (buf : list Z) :
  (16 <= length buf)%nat ->
  forall j, (j < 16)%nat ->
    snd (pixels u8_store solid_8x2 4 0 1 2 16 0 buf) !! j = Some 124.
Proof.
  intros Hlen.
  do 16 (destruct buf as [|? buf]; [simpl in Hlen; lia|]).
  intros j Hj.
  do 16 (destruct j as [|j]; [vm_compute; reflexivity|]).
  lia.
Qed.

Lemma rows_8x2 {St} (store : Z -> Z -> MS St unit) (src : list Z)
    (cn idxR idxG idxB : Z) (s : St) :
  grayscale_rows store src 8 2 cn idxR idxG idxB s
  = pixels store src cn idxR idxG idxB 16 0 s.
Proof.
  rewrite (grayscale_rows_reference store src 8 2 cn idxR idxG idxB s).
  apply (reference_rows_pixels store src 8 2 cn idxR idxG idxB s).
Qed.

(** C3, as stated, fails: the 16 destination bytes are 124, not 69. *)
Lemma grayscale_solid_8x2_not_69 :
  exists dst h0 h1 out,
    Matrix_new 8 2 (Z.lor DataType_U8 Channels_C1) None empty_heap
    = (Ok dst, h0)
    /\ grayscale solid_8x2 8 2 dst RGBA2GRAY h0 = (Ok tt, h1)
    /\ Matrix_data_bytes h1 dst = Some out
    /\ out = replicate 16 124
    /\ ~ (forall j, (j < 16)%nat -> out !! j = Some 69).
Proof.
  exists 0%nat. eexists. eexists. exists (replicate 16 124).
  split; [vm_compute; reflexivity|].
  split; [vm_compute; reflexivity|].
  split; [reflexivity|]. split; [reflexivity|].
  intros H. specialize (H 0%nat ltac:(lia)). discriminate H.
Qed.

(** C3 (amended): for the 8x2 RGBA source in which every pixel is
    (200, 100, 50, 255), grayscale conversion with the RGBA-to-gray code
    into a matrix of bytes writes the value 124, which is the integer
    part of [0.299*200 + 0.587*100 + 0.114*50] in binary64, into every
    one of the 16 destination bytes. *)
Theorem grayscale_solid_8x2 (hp : heap) (dst : loc) :
  Matrix_u8_ok hp dst ->
  exists hp' out,
    grayscale solid_8x2 8 2 dst RGBA2GRAY hp = (Ok tt, hp')
    /\ Matrix_data_bytes hp' dst = Some out
    /\ (forall j, (j < 16)%nat -> out !! j = Some 124)
    /\ float_trunc
         (PrimFloat.add
            (PrimFloat.add (PrimFloat.mul WR (byte_to_float 200))
                           (PrimFloat.mul WG (byte_to_float 100)))
            (PrimFloat.mul WB (byte_to_float 50))) = 124.
Proof.
  intros (m & d & D & buf & Hm & Hty & Hbuf & Hdata & HD & Hb & Hsize).
  unfold grayscale, grayscale_with.
  change (layout RGBA2GRAY) with (4, 0, 1, 2). cbv beta iota.
  pose proof (Matrix_resize_eval dst m d D 8 2 (Some Channels_C1) hp
                Hm Hbuf HD) as E.
  cbv zeta in E.
  change (default (Matrix_channels m) (Some Channels_C1)) with Channels_C1
    in E.
  set (m1 := mkMatrix 8 2 (Matrix_type m) Channels_C1 (Some d) (Matrix_data m))
    in *.
  assert (Hbytes : Matrix_bytes m1 = Num 16).
  { unfold Matrix_bytes, getDataTypeSize, m1. cbn [Matrix_type Matrix_cols
      Matrix_rows Matrix_channels]. rewrite Hty. reflexivity. }
  assert (Hm1 : <[dst := m1]> (matrices hp) !! dst = Some m1)
    by (eapply lookup_insert_same; exact Hm).
  rewrite Hbytes in E. cbn [ngt] in E.
  destruct (Data_size D <? 16) eqn:Hcmp.
  - (* the buffer is too small: a new one of 16 bytes *)
    rewrite (Matrix_allocate_eval dst m1) in E by exact Hm1.
    cbv zeta in E. rewrite Hbytes in E.
    change (align8 (Num 16)) with 16 in E. cbn [Z.ltb Z.compare] in E.
    cbn [abufs datas matrices nodes caches with_matrices] in E.
    rewrite list_insert_insert_eq in E.
    rewrite (bind_ok _ _ _ _ _ E).
    set (d' := length (datas hp)) in *.
    set (b' := length (abufs hp)) in *.
    assert (Hm2 : Matrix_rebound m1 d'
                  = mkMatrix 8 2 (Matrix_type m) Channels_C1 (Some d')
                      (Some (mkTypedArray u8 d'))).
    { unfold Matrix_rebound, m1, Matrix_selectTypedView.
      cbn [Matrix_type Matrix_cols Matrix_rows Matrix_channels Matrix_buffer].
      rewrite Hty. reflexivity. }
    rewrite Hm2.
    erewrite bind_ok
      by (apply deref_ok; cbn [matrices]; eapply lookup_insert_same; exact Hm).
    cbn [Matrix_data].
    rewrite rows_8x2.
    erewrite (pixels_u8 _ _ _ _ _ d' (mkData 16 b') 16 0
                (replicate (Z.to_nat 16) 0));
      [|cbn [datas]; apply lookup_snoc|cbn [abufs Data_buffer]; apply lookup_snoc].
    eexists. eexists. split; [reflexivity|].
    split.
    + unfold Matrix_data_bytes, with_abufs.
      cbn [matrices datas abufs Data_buffer].
      rewrite (lookup_insert_same _ _ _ _ Hm). cbn [Matrix_data ta_owner].
      unfold d', b'. rewrite lookup_snoc. cbn [Data_buffer].
      apply list_lookup_insert_eq. rewrite length_app. cbn [length]. lia.
    + split; [|vm_compute; reflexivity].
      apply solid_bytes. reflexivity.
  - (* the buffer is large enough: it is kept *)
    apply Z.ltb_ge in Hcmp.
    rewrite (bind_ok _ _ _ _ _ E).
    erewrite bind_ok by (apply deref_ok; cbn [matrices with_matrices];
                         exact Hm1).
    unfold m1 at 1. cbn [Matrix_data]. rewrite Hdata.
    rewrite rows_8x2.
    erewrite (pixels_u8 _ _ _ _ _ d D 16 0 buf);
      [|cbn [datas with_matrices]; exact HD
       |cbn [abufs with_matrices]; exact Hb].
    eexists. eexists. split; [reflexivity|].
    split.
    + unfold Matrix_data_bytes, with_abufs, with_matrices.
      cbn [matrices datas abufs].
      rewrite Hm1. unfold m1. cbn [Matrix_data]. rewrite Hdata.
      cbn [ta_owner]. rewrite HD.
      apply list_lookup_insert_eq. eapply lookup_lt_Some. exact Hb.
    + split; [|vm_compute; reflexivity].
      apply solid_bytes. lia.
Qed.

Lemma grayscale_solid_8x2_witness :
  exists hp' out,
    grayscale solid_8x2 8 2 0%nat RGBA2GRAY
      (snd (Matrix_new 2 2 (Z.lor DataType_U8 Channels_C1) None empty_heap))
    = (Ok tt, hp')
    /\ Matrix_data_bytes hp' 0%nat = Some out
    /\ (forall j, (j < 16)%nat -> out !! j = Some 124).
Proof.
  destruct (grayscale_solid_8x2
              (snd (Matrix_new 2 2 (Z.lor DataType_U8 Channels_C1) None
                      empty_heap)) 0%nat) as (hp' & out & H1 & H2 & H3 & _).
  - exists (mkMatrix 2 2 DataType_U8 1 (Some 0%nat)
              (Some (mkTypedArray u8 0%nat))),
      0%nat, (mkData 8 0%nat), (replicate 8 0).
    repeat split; simpl; lia.
  - exists hp', out. auto.
Defined.

(** ** The fuel of the loops is enough *)

Lemma terminates_ret {St A} (a : A) : terminates (@ret St A a).
Proof. intros s. discriminate. Qed.

Lemma terminates_throw {St A} (e : error) :
  e <> FuelExhausted -> terminates (@throw St A e).
Proof. intros He s. simpl. congruence. Qed.

Lemma terminates_bind {St A B} (m : MS St A) (k : A -> MS St B) :
  terminates m -> (forall a, terminates (k a)) -> terminates (bind m k).
Proof.
  intros Hm Hk s. unfold bind.
  specialize (Hm s). destruct (m s) as [[a|e] s1]; simpl in *.
  - apply Hk.
  - intros [= ->]. apply Hm. reflexivity.
Qed.

Lemma terminates_meq {St A} (m1 m2 : MS St A) :
  m1 =~= m2 -> terminates m2 -> terminates m1.
Proof. intros H H2 s. rewrite (H s). apply H2. Qed.

Lemma terminates_deref {A} (table : heap -> list A) (l : loc) :
  terminates (deref table l).
Proof. intros h. unfold deref. destruct (table h !! l); discriminate. Qed.

Lemma terminates_for_count {St S} (body : Z -> S -> MS St S) :
  (forall i s, terminates (body i s)) ->
  forall n i s, terminates (for_count n i body s).
Proof.
  intros Hb n. induction n as [|n IH]; intros i s; simpl.
  - apply terminates_ret.
  - apply terminates_bind; [apply Hb | intros s'; apply IH].
Qed.

Lemma terminates_Data_new n existing : terminates (Data_new n existing).
Proof.
  intros h. destruct existing as [b|].
  - destruct (abufs h !! b) as [bytes|] eqn:Hb.
    + rewrite (Data_new_wrap n b bytes h Hb).
      destruct (_ =? 0); simpl; discriminate.
    + unfold Data_new. unfold bind at 1. unfold ret at 1.
      erewrite bind_throw
        by (unfold new_TypedArray; erewrite bind_throw;
            [reflexivity | apply deref_none; exact Hb]).
      simpl. discriminate.
  - rewrite Data_new_alloc. destruct (_ <? 0); simpl; discriminate.
Qed.

Lemma terminates_Matrix_allocate this : terminates (Matrix_allocate this).
Proof.
  unfold Matrix_allocate.
  apply terminates_bind; [apply terminates_deref|]. intros m.
  apply terminates_bind; [apply terminates_Data_new|]. intros d.
  intros h. simpl. discriminate.
Qed.

Lemma terminates_Matrix_resize this c r ch :
  terminates (Matrix_resize this c r ch).
Proof.
  unfold Matrix_resize.
  apply terminates_bind; [apply terminates_deref|]. intros m.
  apply terminates_bind; [intros h; simpl; discriminate|]. intros _.
  apply terminates_bind.
  - destruct (Matrix_buffer m); [apply terminates_deref|].
    apply terminates_throw. discriminate.
  - intros D. destruct (ngt _ _);
      [apply terminates_Matrix_allocate | apply terminates_ret].
Qed.

Lemma terminates_TypedArray_set ta j v : terminates (TypedArray_set ta j v).
Proof.
  unfold TypedArray_set. destruct ta as [t|];
    [|apply terminates_throw; discriminate].
  apply terminates_bind; [apply terminates_deref|]. intros D.
  apply terminates_bind; [apply terminates_deref|]. intros bytes.
  destruct (_ && _); [intros h; simpl; discriminate | apply terminates_ret].
Qed.

(** The conversion never stops for lack of fuel: the [w] turns granted to
    each inner loop of a row are enough. *)
Lemma grayscale_terminates src w h dst code :
  terminates (grayscale src w h dst code).
Proof.
  unfold grayscale, grayscale_with.
  destruct (layout code) as [[[cn idxR] idxG] idxB].
  apply terminates_bind; [apply terminates_Matrix_resize|]. intros _.
  apply terminates_bind; [apply terminates_deref|]. intros m.
  eapply terminates_meq; [apply grayscale_rows_reference|].
  unfold reference_rows, for_loop.
  apply terminates_for_count. intros y [].
  apply terminates_for_count. intros x [].
  apply terminates_TypedArray_set.
Qed.
